(** * RAG-Pipeline: HTML cleaner, indexer and query tool

    A shallow embedding of the three scripts of the repository
    ([parse_html.py], [embed_documents.py], [query_with_context.py]) and the
    properties of their pipeline.

    Conventions.
    - A Python [str] is a list of code points ([N]); [len] is [length] and
      [+] on strings is [++].
    - The parse tree that [BeautifulSoup(text, "html.parser")] builds is an
      inductive [node]; a place in the tree is a [path] of child indices, so
      that the identity of an element survives the in-place edits of the
      script.
    - Exceptions are explicit: stateful code runs in a small state-and-error
      monad over the files written so far. *)

From Stdlib Require Import ZArith NArith Decimal DecimalNat Ascii String Lia.
From stdpp Require Import base tactics option numbers list countable gmap.

Set Warnings "-register-all".

Local Open Scope N_scope.
Local Open Scope nat_scope.
Local Open Scope list_scope.

(* ================================================================== *)
(** * Part I: definitions *)
(* ================================================================== *)

(** ** Python strings *)

Abbreviation char := N (only parsing).
Abbreviation str := (list N) (only parsing).

(** A string literal of the source, one code point per character. *)
Definition lit (s : string) : str :=
  map N_of_ascii (list_ascii_of_string s).
Arguments lit : simpl never.

(** ["\n"] *)
Definition nl : str := [10%N].

Fixpoint digits (d : Decimal.uint) : str :=
  match d with
  | Decimal.Nil => []
  | Decimal.D0 d => 48%N :: digits d
  | Decimal.D1 d => 49%N :: digits d
  | Decimal.D2 d => 50%N :: digits d
  | Decimal.D3 d => 51%N :: digits d
  | Decimal.D4 d => 52%N :: digits d
  | Decimal.D5 d => 53%N :: digits d
  | Decimal.D6 d => 54%N :: digits d
  | Decimal.D7 d => 55%N :: digits d
  | Decimal.D8 d => 56%N :: digits d
  | Decimal.D9 d => 57%N :: digits d
  end.

(** [str(n)] for a non-negative integer, as an f-string formats it. *)
Definition str_of_nat (n : nat) : str := digits (Nat.to_uint n).

(** [s.startswith(p)] *)
Fixpoint startswith (s p : str) : bool :=
  match p, s with
  | [], _ => true
  | _ :: _, [] => false
  | a :: p', b :: s' => if decide (a = b) then startswith s' p' else false
  end.

(** [s.endswith(p)] *)
Definition endswith (s p : str) : bool := startswith (rev s) (rev p).

(** [p in s]: [p] occurs in [s] as a substring. *)
Fixpoint contains (s p : str) : bool :=
  startswith s p ||
  match s with
  | [] => false
  | _ :: s' => contains s' p
  end.

(** The scan behind [s.split(sep)], [re.split] on an escaped literal and
    [s.replace(old, new)]: the pieces of [s] between the leftmost,
    non-overlapping occurrences of a non-empty [sep].  [skip] counts the
    characters of a matched separator that are still to be passed over.  The
    result is the piece under construction and the pieces after it. *)
Fixpoint split_go (sep s : str) (skip : nat) : str * list str :=
  match s with
  | [] => ([], [])
  | c :: s' =>
      match skip with
      | S k => split_go sep s' k
      | O =>
          if startswith s sep then
            let '(piece, more) := split_go sep s' (length sep - 1) in
            ([], piece :: more)
          else
            let '(piece, more) := split_go sep s' 0 in
            (c :: piece, more)
      end
  end.

(** [s.split(sep)] for a non-empty [sep]. *)
Definition split (sep s : str) : list str :=
  let '(piece, more) := split_go sep s 0 in piece :: more.

(** [sep.join(l)] *)
Fixpoint join (sep : str) (l : list str) : str :=
  match l with
  | [] => []
  | [x] => x
  | x :: l' => x ++ sep ++ join sep l'
  end.

(** [s.replace(old, new)] for a non-empty [old]. *)
Definition replace (s old new : str) : str := join new (split old s).

(** [c.isspace()]: the code points Python's [str.strip()] removes. *)
Definition isspace (c : char) : bool :=
  ((9 <=? c) && (c <=? 13) || (28 <=? c) && (c <=? 32) ||
   (c =? 133) || (c =? 160) || (c =? 5760) ||
   (8192 <=? c) && (c <=? 8202) || (c =? 8232) || (c =? 8233) ||
   (c =? 8239) || (c =? 8287) || (c =? 12288))%N.

Fixpoint lstrip (s : str) : str :=
  match s with
  | [] => []
  | c :: s' => if isspace c then lstrip s' else s
  end.

(** [s.strip()] *)
Definition strip (s : str) : str := rev (lstrip (rev (lstrip s))).

(** [s.split()]: the maximal runs of non-whitespace characters. *)
Fixpoint words_go (s : str) (cur : str) : list str :=
  match s with
  | [] => if cur is [] then [] else [rev cur]
  | c :: s' =>
      if isspace c
      then (if cur is [] then words_go s' [] else rev cur :: words_go s' [])
      else words_go s' (c :: cur)
  end.

Definition words (s : str) : list str := words_go s [].

(** ** Documents *)

(** langchain's [Document]: the text and the metadata dictionary. *)
Record Document := mkDocument {
  page_content : str;
  metadata : list (str * str)
}.

(** ** Exceptions and outcomes *)

Inductive exn :=
  FileNotFoundError | OSError | UnicodeDecodeError | AttributeError
  | EOFError | LibraryError.

(** How a piece of a script ends: it returns, it raises, or it does not
    end. *)
Inductive outcome (A : Type) :=
| Return (a : A)
| Raise (e : exn)
| Hang.
Arguments Return {A} a.
Arguments Raise {A} e.
Arguments Hang {A}.

(** ** The query tool ([query_with_context.py]) *)

Definition persist_dir : str := lit "chromadb-index".
Definition embedding_model : str := lit "all-MiniLM-L6-v2".
Definition top_k : nat := 5.

(** [for i, x in enumerate(l): s = body i x s], counting from [i]. *)
Fixpoint for_enumerate {A St : Type} (body : nat → A → St → St)
    (i : nat) (l : list A) (s : St) : St :=
  match l with
  | [] => s
  | x :: l' => for_enumerate body (S i) l' (body i x s)
  end.

(** The first assignment to [prompt] (line 16). *)
Definition preamble : str :=
  lit "You are an expert. Use the following information to answer the user's question."
  ++ nl ++ nl.

(** The f-string of line 18: [f"[Source {i+1}]\n{doc.page_content}\n\n"]. *)
Definition source_block (i : nat) (doc : Document) : str :=
  lit "[Source " ++ str_of_nat (i + 1) ++ lit "]" ++ nl
  ++ page_content doc ++ nl ++ nl.

(** The f-string of line 19: [f"User's question: {query}\n\nAnswer:"]. *)
Definition question_block (query : str) : str :=
  lit "User's question: " ++ query ++ nl ++ nl ++ lit "Answer:".

(** Lines 16 to 19: the value of [prompt] when the script prints it. *)
Definition prompt (query : str) (results : list Document) : str :=
  let prompt := preamble in
  let prompt :=
    for_enumerate (λ i doc prompt, prompt ++ source_block i doc)
      0 results prompt in
  prompt ++ question_block query.

(** What the script does to its console: the characters it has written to
    the standard output, and how it ended. *)
Definition Console (A : Type) : Type := str * outcome A.

Definition console_bind {A B} (m : Console A) (k : A → Console B)
    : Console B :=
  match m with
  | (written, Return a) => let '(more, o) := k a in (written ++ more, o)
  | (written, Raise e) => (written, Raise e)
  | (written, Hang) => (written, Hang)
  end.

Notation "x ←C m ; k" := (console_bind m (λ x, k))
  (at level 20, m at level 100, k at level 200, only parsing).
Notation "m ;;C k" := (console_bind m (λ _, k))
  (at level 100, k at level 200, right associativity, only parsing).

(** A call of a library: it writes nothing. *)
Definition call {A} (o : outcome A) : Console A := ([], o).

(** [print(line)] *)
Definition println (line : str) : Console unit := (line ++ nl, Return ()).

(** [input(question)]: the question is written, without a newline; then
    the next line of the standard input is read, without its newline.
    [stdin] is that line, or [None] at the end of the input, where [input]
    raises [EOFError]. *)
Definition input (question : str) (stdin : option str) : Console str :=
  match stdin with
  | Some line => (question, Return line)
  | None => (question, Raise EOFError)
  end.

Section query_with_context.
(** The embedding model and the vector store are libraries, not code of
    the repository: the script is given what its three calls of them do,
    each of which returns or raises. *)
Context {Embeddings VectorStore : Type}.
Variable HuggingFaceEmbeddings : str → outcome Embeddings.
Variable Chroma : str → Embeddings → outcome VectorStore.
Variable similarity_search :
  VectorStore → str → nat → outcome (list Document).

(** The whole script (lines 10 to 24), for the line [stdin] that [input]
    finds. *)
Definition query_with_context (stdin : option str) : Console unit :=
  embedding ←C call (HuggingFaceEmbeddings embedding_model);
  vectordb ←C call (Chroma persist_dir embedding);
  query ←C input ([128269%N] ++ lit " Enter your question: ") stdin;
  results ←C call (similarity_search vectordb query top_k);
  let prompt := prompt query results in
  println (nl ++ [128203%N] ++ lit " Copy this prompt into your LLM chat:") ;;C
  println (lit "======== COPY BELOW ========") ;;C
  println prompt ;;C
  println (lit "======== COPY ABOVE ========").

(** Modelled from the spec: what the specification says of the two
    libraries, whose code is not in the repository, when the index
    directory is empty or was never written.  Section 4.3: "empty or
    uninitialized index → retrieval returns zero results".  The model
    loads, the store opens, and every search returns no chunk. *)
Definition empty_index : Prop :=
  ∃ embedding vectordb,
    HuggingFaceEmbeddings embedding_model = Return embedding
    ∧ Chroma persist_dir embedding = Return vectordb
    ∧ ∀ query k, similarity_search vectordb query k = Return [].
End query_with_context.

(** Libraries for the scenarios: a model that loads, a store that opens
    and finds no chunk, and a store that cannot be opened. *)
Definition model_loads (model_name : str) : outcome unit := Return ().
Definition store_opens (persist_directory : str) (embedding : unit)
    : outcome unit := Return ().
Definition store_fails (persist_directory : str) (embedding : unit)
    : outcome unit := Raise LibraryError.
Definition finds_nothing (vectordb : unit) (query : str) (k : nat)
    : outcome (list Document) := Return [].

(** ** The parse tree of BeautifulSoup ([bs4]) *)

(** The classes of [NavigableString]. *)
Inductive string_kind :=
  Text | Comment | CData | ProcessingInstruction | Declaration | Doctype.

(** A [PageElement]: a [NavigableString], or a [Tag] with its name, its
    attribute dictionary and its [contents].  The [BeautifulSoup] object is
    the tag named ["[document]"]. *)
Inductive node :=
| NavigableString (kind : string_kind) (s : str)
| Tag (name : str) (attrs : list (str * str)) (contents : list node).

Definition BeautifulSoup (contents : list node) : node :=
  Tag (lit "[document]") [] contents.

(** [isinstance(n, Tag)] *)
Definition is_tag (n : node) : bool :=
  match n with
  | Tag _ _ _ => true
  | NavigableString _ _ => false
  end.

(** [n.name]: [None] for a string. *)
Definition name_of (n : node) : option str :=
  match n with
  | Tag name _ _ => Some name
  | NavigableString _ _ => None
  end.

Definition contents_of (n : node) : list node :=
  match n with
  | Tag _ _ contents => contents
  | NavigableString _ _ => []
  end.

(** [attrs.get(key)] *)
Fixpoint attr_get (attrs : list (str * str)) (key : str) : option str :=
  match attrs with
  | [] => None
  | (k, v) :: attrs' => if decide (k = key) then Some v else attr_get attrs' key
  end.

(** The match of [find(name, id=value)] on one element. *)
Definition named_with_id (name value : str) (n : node) : bool :=
  match n with
  | Tag nm attrs _ =>
      bool_decide (nm = name)
      && bool_decide (attr_get attrs (lit "id") = Some value)
  | NavigableString _ _ => false
  end.

(** The match of [find(name)] on one element. *)
Definition named (name : str) (n : node) : bool :=
  match n with
  | Tag nm _ _ => bool_decide (nm = name)
  | NavigableString _ _ => false
  end.

(** The element has the class [c]: the [class] attribute is a list of
    whitespace-separated names. *)
Definition has_class (c : str) (n : node) : bool :=
  match n with
  | Tag _ attrs _ =>
      match attr_get attrs (lit "class") with
      | Some v => bool_decide (c ∈ words v)
      | None => false
      end
  | NavigableString _ _ => false
  end.

(** A place in the tree: the indices of the children to go through, from
    the root. *)
Abbreviation path := (list nat).

Fixpoint lookup_path (p : path) (n : node) : option node :=
  match p with
  | [] => Some n
  | i :: p' =>
      match n with
      | Tag _ _ contents => contents !! i ≫= lookup_path p'
      | NavigableString _ _ => None
      end
  end.

(** Edit the [contents] of the tag at [p], in place. *)
Fixpoint alter_contents (f : list node → list node) (p : path) (n : node)
    : node :=
  match n with
  | NavigableString _ _ => n
  | Tag name attrs contents =>
      match p with
      | [] => Tag name attrs (f contents)
      | i :: p' => Tag name attrs (alter (alter_contents f p') i contents)
      end
  end.

(** Edit the [contents] of the parent of the element at [p], in place;
    [f] is given the position of the element among its siblings.  The root
    has no parent. *)
Fixpoint alter_siblings (f : list node → nat → list node) (p : path)
    (n : node) : node :=
  match n with
  | NavigableString _ _ => n
  | Tag name attrs contents =>
      match p with
      | [] => n
      | [i] => Tag name attrs (f contents i)
      | i :: p' => Tag name attrs (alter (alter_siblings f p') i contents)
      end
  end.

(** [extract()] or [decompose()] of the element at [p]: it leaves the
    [contents] of its parent. *)
Definition remove_at (p : path) (soup : node) : node :=
  alter_siblings (λ contents i, delete i contents) p soup.

(** The first of the elements [l], numbered from [i], in which [f] finds
    something. *)
Fixpoint first_in (f : node → option path) (l : list node) (i : nat)
    : option path :=
  match l with
  | [] => None
  | x :: l' =>
      match f x with
      | Some p => Some (i :: p)
      | None => first_in f l' (S i)
      end
  end.

(** The first element in document order, [n] included, that [q] accepts. *)
Fixpoint find_from (q : node → bool) (n : node) : option path :=
  if q n then Some []
  else match n with
       | NavigableString _ _ => None
       | Tag _ _ contents => first_in (find_from q) contents 0
       end.

(** [soup.find(..)]: the first descendant in document order that [q]
    accepts. *)
Definition find (q : node → bool) (soup : node) : option path :=
  first_in (find_from q) (contents_of soup) 0.

(** [el.parents], nearest first, for the element at [p]. *)
Definition parents (p : path) : list path :=
  (λ k, take k p) <$> reverse (seq 0 (length p)).

(** [el.find_parent(name)] for the element at [p]. *)
Definition find_parent (name : str) (soup : node) (p : path) : option path :=
  head (filter
          (λ a, from_option (named name) false (lookup_path a soup) = true)
          (parents p)).

(** The position of the first element of [l] that [q] accepts. *)
Fixpoint index_where {A} (q : A → bool) (l : list A) : option nat :=
  match l with
  | [] => None
  | x :: l' => if q x then Some 0 else S <$> index_where q l'
  end.

(** [current.find_next_sibling()] in the [contents] of the parent, for the
    child at position [current]: the next sibling that is a [Tag]; strings
    are passed over. *)
Definition find_next_sibling (siblings : list node) (current : nat)
    : option nat :=
  (λ k, S current + k) <$> index_where is_tag (drop (S current) siblings).

(** A match that does not look at the [contents] of a tag. *)
Definition shallow (q : node → bool) : Prop :=
  ∀ name attrs c c', q (Tag name attrs c) = q (Tag name attrs c').

(** ** The HTML cleaner ([parse_html.py]) *)

(** *** Lines 10 to 13: keep the main content only *)

(** [soup.find("div", id="mw-content-text")] *)
Definition content_root_of (soup : node) : option path :=
  find (named_with_id (lit "div") (lit "mw-content-text")) soup.

(** [soup.body], that is [soup.find("body")]. *)
Definition body_of (soup : node) : option path :=
  find (named (lit "body")) soup.

(** [body.clear()]: every child of the element at [body] is extracted. *)
Definition clear (body : path) (soup : node) : node :=
  alter_contents (λ _, []) body soup.

(** Where the element at [p] is once the element at [removed], which does
    not contain it, has left the tree: a later sibling of [removed], or an
    element below one, moves up by one position. *)
Fixpoint path_after_removal (removed p : path) : path :=
  match removed, p with
  | [i], j :: p' => if i <? j then (j - 1) :: p' else p
  | i :: removed', j :: p' =>
      if i =? j then j :: path_after_removal removed' p' else p
  | _, _ => p
  end.

(** The element at [p] has a next sibling. *)
Definition has_next_sibling (soup : node) (p : path) : bool :=
  match reverse p with
  | [] => false
  | i :: parent =>
      match lookup_path (reverse parent) soup with
      | Some (Tag _ _ contents) => S i <? length contents
      | _ => false
      end
  end.

(** The element at [p] and its ancestors below the element at [top],
    nearest first. *)
Definition chain_up_to (top p : path) : list path :=
  (λ k, take k p) <$> reverse (seq (S (length top)) (length p - length top)).

(** [body.append(content_root)], after [body.clear()].  [c] is the element
    that was found at [content_root], [body] and [content_root] are the
    places of the two elements before [clear].
    - [content_root.extract()]: the element leaves its parent; when it was
      below [body] it has already left the tree with a child of [body].
    - [insert] sets [content_root.parent = body], then looks for what
      follows in the document: it goes from [body] up through [.parent]
      until an element has a next sibling or there is no parent.  When
      [body] is below [content_root] the parents form a cycle, and the
      search ends only if [body] or one of its ancestors below
      [content_root] has a next sibling; the two elements have then left
      the tree together, and what is written is the tree without them.
    - Otherwise the element becomes the last child of [body]. *)
Definition append (body content_root : path) (c : node) (soup : node)
    : outcome node :=
  if bool_decide (content_root `prefix_of` body) then
    if existsb (has_next_sibling soup) (chain_up_to content_root body)
    then Return (remove_at content_root soup)
    else Hang
  else
    let soup :=
      if bool_decide (body `prefix_of` content_root) then soup
      else remove_at content_root soup in
    Return (alter_contents (λ contents, contents ++ [c])
              (path_after_removal content_root body) soup).

(** Lines 10 to 13.  [soup.body] on line 13 finds again the element that
    line 12 has emptied. *)
Definition retain_main_content (soup : node) : outcome node :=
  match content_root_of soup with
  | None => Return soup
  | Some content_root =>
      match body_of soup with
      | None => Raise AttributeError
      | Some body =>
          match lookup_path content_root soup with
          | Some c => append body content_root c (clear body soup)
          | None => Return soup
          end
      end
  end.

(** *** Lines 16 to 21: remove the clutter *)

(** The two forms of selector of the script: [.c] and [.ancestor .c]. *)
Inductive selector :=
| ByClass (c : str)
| Descendant (ancestor c : str).

Definition clutter : list selector :=
  [ ByClass (lit "navbox"); ByClass (lit "printfooter"); ByClass (lit "toc");
    ByClass (lit "mw-editsection");
    Descendant (lit "mw-parser-output") (lit "hlist") ].

(** [n] is in [soup.select(sel)]; [inside] tells whether an ancestor of [n]
    has the class that a [Descendant] selector asks for. *)
Definition selected (sel : selector) (inside : bool) (n : node) : bool :=
  match sel with
  | ByClass c => has_class c n
  | Descendant _ c => inside && has_class c n
  end.

Definition enters (sel : selector) (inside : bool) (n : node) : bool :=
  match sel with
  | ByClass _ => inside
  | Descendant ancestor _ => inside || has_class ancestor n
  end.

(** [for tag in soup.select(sel): tag.decompose()]: every selected element
    leaves the tree with all that is below it ([decompose] on an element
    that went with an ancestor does nothing). *)
Fixpoint decompose_selected (sel : selector) (inside : bool) (n : node)
    : option node :=
  match n with
  | NavigableString _ _ => Some n
  | Tag name attrs contents =>
      if selected sel inside n then None
      else Some (Tag name attrs
                   (omap (decompose_selected sel (enters sel inside n))
                      contents))
  end.

Definition remove_selected (sel : selector) (soup : node) : node :=
  match soup with
  | Tag name attrs contents =>
      Tag name attrs
        (omap (decompose_selected sel (enters sel false soup)) contents)
  | NavigableString _ _ => soup
  end.

(** *** Lines 24 to 29: remove the junk strings *)

(** The [lambda] of line 24. *)
Definition junk (s : str) : bool :=
  contains s (lit "wiki.") || contains s (lit "Retrieved from")
  || contains s (lit "In other languages:").

(** [for el in soup.find_all(string=junk): el.extract()] *)
Fixpoint extract_junk (n : node) : option node :=
  match n with
  | NavigableString _ s => if junk s then None else Some n
  | Tag name attrs contents =>
      Some (Tag name attrs (omap extract_junk contents))
  end.

Definition remove_junk (soup : node) : node :=
  match soup with
  | Tag name attrs contents => Tag name attrs (omap extract_junk contents)
  | NavigableString _ _ => soup
  end.

(** *** Lines 32 to 43: remove the "See also" section *)

(** [next_node and next_node.name and next_node.name.startswith("h")] *)
Definition starts_with_h (n : option node) : bool :=
  match n ≫= name_of with
  | Some name => startswith name (lit "h")
  | None => false
  end.

(** The [while current] loop, on the [contents] of the parent of the
    heading.  [current] is the position of the element [current]; [heading]
    is the position of the heading while it is in the tree.  One unit of
    [fuel] is used per pass; [None] when it runs out. *)
Fixpoint while_current (fuel : nat) (siblings : list node) (current : nat)
    (heading : option nat) : option (list node * option nat) :=
  match fuel with
  | O => None
  | S fuel =>
      let next_node := find_next_sibling siblings current in
      match next_node with
      | Some next =>
          if starts_with_h (siblings !! next)
          then Some (siblings, heading)
          else
            (* [current.decompose()]; in the first pass [current] is the
               heading.  [current = next_node], one place to the left. *)
            while_current fuel (delete current siblings) (next - 1) None
      | None =>
          (* [current.decompose()], then [current = None] ends the loop. *)
          Some (delete current siblings, None)
      end
  end.

(** Lines 36 to 43 on the [contents] of the parent of the heading.  The
    last [heading.decompose()] does nothing when the loop has decomposed the
    heading. *)
Definition remove_section (siblings : list node) (heading : nat)
    : list node :=
  match while_current (S (length siblings)) siblings heading (Some heading) with
  | Some (siblings, Some heading) => delete heading siblings
  | Some (siblings, None) => siblings
  | None => siblings
  end.

(** The outcome of the loop in closed form, for the siblings [rest] that
    follow [current]: whether [current] stays in the tree (the loop ends
    with [break] before [current.decompose()]), and what [rest] becomes.
    Strings stay; a tag whose name starts with ["h"] ends the loop; any
    other tag becomes [current] in its turn, once the [current] of the pass
    is decomposed. *)
Fixpoint after_current (rest : list node) : bool * list node :=
  match rest with
  | [] => (false, [])
  | x :: rest' =>
      if is_tag x then
        if starts_with_h (Some x) then (true, rest)
        else
          let '(stays, out) := after_current rest' in
          (false, (if stays then [x] else []) ++ out)
      else
        let '(stays, out) := after_current rest' in (stays, x :: out)
  end.

(** [soup.find("span", id="See_also")] *)
Definition see_also_span_of (soup : node) : option path :=
  find (named_with_id (lit "span") (lit "See_also")) soup.

Definition remove_see_also (soup : node) : node :=
  match see_also_span_of soup with
  | None => soup
  | Some see_also_span =>
      match find_parent (lit "h2") soup see_also_span with
      | None => soup
      | Some heading => alter_siblings remove_section heading soup
      end
  end.

(** *** [clean_html_file] and the main loop *)

(** Lines 10 to 43, on the parsed document. *)
Definition clean_soup (soup : node) : outcome node :=
  match retain_main_content soup with
  | Raise e => Raise e
  | Hang => Hang
  | Return soup =>
      let soup := foldl (λ soup sel, remove_selected sel soup) soup clutter in
      let soup := remove_junk soup in
      Return (remove_see_also soup)
  end.

(** A file that holds HTML is identified with the tree that [html.parser]
    builds from it and that [str(soup)] writes; a file may also be one that
    cannot be opened or decoded.  The text of the file is not modelled:
    [str(soup)] writes the strings of the tree one after the other, so that
    what is said of a written file is said of its elements and of the
    string nodes of its tree. *)
Inductive file :=
| Unreadable (e : exn)
| Html (soup : node).

(** The part of the file system that the script touches: the HTML files and
    the text files by path, and what [os.listdir("raw-html")] returns
    (nothing when the directory is missing); and what was printed.  The
    directories of the output are there ([os.makedirs], lines 52 and 53)
    and files can be written. *)
Record world := mkWorld {
  files : gmap (list N) file;
  texts : gmap (list N) (list N);
  raw_html : option (list str);
  stdout : list str
}.

(** Computations that read and write the world and may raise or hang. *)
Definition M (A : Type) : Type := world → outcome A * world.

Definition ret {A} (a : A) : M A := λ w, (Return a, w).
Definition raise {A} (e : exn) : M A := λ w, (Raise e, w).
Definition bind {A B} (m : M A) (k : A → M B) : M B :=
  λ w, match m w with
       | (Return a, w') => k a w'
       | (Raise e, w') => (Raise e, w')
       | (Hang, w') => (Hang, w')
       end.

Notation "x ←M m ; k" := (bind m (λ x, k))
  (at level 20, m at level 100, k at level 200, only parsing).
Notation "m ;;M k" := (bind m (λ _, k))
  (at level 100, k at level 200, right associativity, only parsing).

(** [for x in l: body x]: an exception leaves the loop, and a pass that
    does not end is the last. *)
Fixpoint for_each {A} (l : list A) (body : A → M unit) : M unit :=
  match l with
  | [] => ret ()
  | x :: l' => body x ;;M for_each l' body
  end.

(** [BeautifulSoup(open(path, "r").read(), "html.parser")] *)
Definition read_html (path : str) : M node :=
  λ w, match files w !! path with
       | None => (Raise FileNotFoundError, w)
       | Some (Unreadable e) => (Raise e, w)
       | Some (Html soup) => (Return soup, w)
       end.

(** [open(path, "w").write(str(soup))] *)
Definition write_html (path : str) (soup : node) : M unit :=
  λ w, (Return (),
        mkWorld (<[path := Html soup]> (files w)) (texts w) (raw_html w)
          (stdout w)).

(** [open(path, "w").write(content)] *)
Definition write_text (path : str) (content : str) : M unit :=
  λ w, (Return (),
        mkWorld (files w) (<[path := content]> (texts w)) (raw_html w)
          (stdout w)).

Definition print (line : str) : M unit :=
  λ w, (Return (),
        mkWorld (files w) (texts w) (raw_html w) (stdout w ++ [line])).

Definition lift {A} (o : outcome A) : M A := λ w, (o, w).

Definition clean_html_file (input_path output_path : str) : M unit :=
  soup ←M read_html input_path;
  soup ←M lift (clean_soup soup);
  write_html output_path soup.

Definition input_dir : str := lit "raw-html".
Definition temp_dir : str := lit "cleaned-html".
Definition output_dir : str := lit "cleaned-markdown".

(** [os.path.join(dir, filename)] for a name that [os.listdir] returned. *)
Definition path_join (dir filename : str) : str := dir ++ lit "/" ++ filename.

Definition listdir_raw_html : M (list str) :=
  λ w, match raw_html w with
       | Some names => (Return names, w)
       | None => (Raise FileNotFoundError, w)
       end.

Section main.
(** [partition_html(filename=..)] of the [unstructured] library, on the
    document of the file: the texts of the elements it finds, or an
    exception. *)
Variable partition_html : node → outcome (list str).

(** The body of the loop of lines 55 to 67, for one name of the
    directory. *)
Definition process (filename : str) : M unit :=
  if endswith filename (lit ".html") then
    let raw_path := path_join input_dir filename in
    let cleaned_path := path_join temp_dir filename in
    clean_html_file raw_path cleaned_path ;;M
    cleaned ←M read_html cleaned_path;
    elements ←M lift (partition_html cleaned);
    let content := join (nl ++ nl) elements in
    let out_path :=
      path_join output_dir (replace filename (lit ".html") (lit ".md")) in
    write_text out_path content
  else ret ().

(** Lines 55 to 69. *)
Definition main : M unit :=
  names ←M listdir_raw_html;
  for_each names process ;;M
  print ([9989%N] ++ lit " HTML cleaned and converted to markdown.").
End main.

(** ** The indexer ([embed_documents.py]) *)

(** langchain's text splitter, as far as the script configures it:
    [RecursiveCharacterTextSplitter(chunk_size=500, chunk_overlap=100)] with
    the defaults [separators=["\n\n", "\n", " ", ""]], [keep_separator=True],
    [length_function=len], [strip_whitespace=True]. *)
Record TextSplitter := mkTextSplitter {
  _chunk_size : Z;
  _chunk_overlap : Z;
  _separators : list str
}.

Definition RecursiveCharacterTextSplitter (chunk_size chunk_overlap : Z)
    : TextSplitter :=
  {| _chunk_size := chunk_size;
     _chunk_overlap := chunk_overlap;
     _separators := [nl ++ nl; nl; lit " "; []] |}.

(** Line 20. *)
Definition splitter : TextSplitter := RecursiveCharacterTextSplitter 500 100.

(** [len(s)] as a Python integer. *)
Definition len {A} (l : list A) : Z := Z.of_nat (length l).

(** [_split_text_with_regex(text, separator, keep_separator=True)]: the
    separator stays at the start of the piece that follows it; an empty
    separator cuts between all characters; empty pieces are dropped. *)
Definition _split_text_with_regex (text separator : str) : list str :=
  let splits :=
    match separator with
    | [] => map (λ c, [c]) text
    | _ =>
        match split separator text with
        | [] => []
        | first :: others => first :: map (λ t, separator ++ t) others
        end
    end in
  filter (λ s, s ≠ []) splits.

(** [_join_docs(docs, separator)]: [None] for a chunk that is empty after
    stripping. *)
Definition _join_docs (docs : list str) (separator : str) : option str :=
  let text := strip (join separator docs) in
  if text is [] then None else Some text.

(** A chunk in the making: the pieces joined into it, how many of the
    leading pieces repeat the end of the chunk before it, and the chunk text
    that was emitted for it (none when it is blank). *)
Record window := mkWindow {
  kept_pieces : nat;
  pieces : list str;
  chunk : option str
}.

Section merge_splits.
Variable self : TextSplitter.
Variable separator : str.

Definition separator_len : Z := len separator.

(** The condition of the inner [while] of [_merge_splits]. *)
Definition keep_popping (_len : Z) (current_doc : list str) (total : Z)
    : bool :=
  (_chunk_overlap self <? total)%Z
  || ((_chunk_size self <?
         total + _len
         + (if (0 <? len current_doc)%Z then separator_len else 0))%Z
      && (0 <? total)%Z).

(** The inner [while]: drop pieces from the front of the window.
    [current_doc[0]] on an empty window is an [IndexError] ([None]). *)
Fixpoint pop_front (_len : Z) (current_doc : list str) (total : Z)
    : option (list str * Z) :=
  match current_doc with
  | [] => if keep_popping _len [] total then None else Some ([], total)
  | first :: rest =>
      if keep_popping _len current_doc total then
        pop_front _len rest
          (total - (len first +
                    (if (1 <? len current_doc)%Z then separator_len else 0)))%Z
      else Some (current_doc, total)
  end.

Definition append_doc (docs : list str) (doc : option str) : list str :=
  match doc with
  | Some d => docs ++ [d]
  | None => docs
  end.

(** The [for d in splits] loop of [_merge_splits] and the statements
    after it. *)
Fixpoint merge_loop (splits : list str) (docs current_doc : list str)
    (total : Z) : option (list str) :=
  match splits with
  | [] => Some (append_doc docs (_join_docs current_doc separator))
  | d :: splits' =>
      let _len := len d in
      '(docs, current_doc, total) ←
        (if (_chunk_size self <?
               total + _len +
               (if (0 <? len current_doc)%Z then separator_len else 0))%Z
         then
           if (0 <? len current_doc)%Z then
             let docs := append_doc docs (_join_docs current_doc separator) in
             '(current_doc, total) ← pop_front _len current_doc total;
             Some (docs, current_doc, total)
           else Some (docs, current_doc, total)
         else Some (docs, current_doc, total));
      let current_doc := current_doc ++ [d] in
      merge_loop splits' docs current_doc
        (total + (_len +
                  (if (1 <? len current_doc)%Z then separator_len else 0)))%Z
  end.

(** [self._merge_splits(splits, separator)] *)
Definition _merge_splits (splits : list str) : option (list str) :=
  merge_loop splits [] [] 0%Z.

(** The same loop with its history: every value of [current_doc] that is
    joined into a chunk is recorded as a [window], together with the
    number of its leading pieces that were kept from the window before
    it. *)
Fixpoint merge_loop_windows (splits : list str) (wins : list window)
    (current_doc : list str) (total : Z) (kept : nat)
    : option (list window) :=
  match splits with
  | [] =>
      Some (wins ++ [mkWindow kept current_doc
                       (_join_docs current_doc separator)])
  | d :: splits' =>
      let _len := len d in
      '(wins, current_doc, total, kept) ←
        (if (_chunk_size self <?
               total + _len +
               (if (0 <? len current_doc)%Z then separator_len else 0))%Z
         then
           if (0 <? len current_doc)%Z then
             let wins :=
               wins ++ [mkWindow kept current_doc
                          (_join_docs current_doc separator)] in
             '(current_doc, total) ← pop_front _len current_doc total;
             Some (wins, current_doc, total, length current_doc)
           else Some (wins, current_doc, total, kept)
         else Some (wins, current_doc, total, kept));
      let current_doc := current_doc ++ [d] in
      merge_loop_windows splits' wins current_doc
        (total + (_len +
                  (if (1 <? len current_doc)%Z then separator_len else 0)))%Z
        kept
  end.

Definition merge_windows (splits : list str) : option (list window) :=
  merge_loop_windows splits [] [] 0%Z 0.
End merge_splits.

Section split_text.
Variable self : TextSplitter.

(** [if _good_splits: final_chunks.extend(self._merge_splits(..))]; the
    merge separator is [""] because [keep_separator] is set. *)
Definition merge_good (final_chunks _good_splits : list str)
    : option (list str) :=
  match _good_splits with
  | [] => Some final_chunks
  | _ => merged ← _merge_splits self [] _good_splits;
         Some (final_chunks ++ merged)
  end.

(** The [for s in splits] loop of [_split_text] and the statements after
    it.  [deeper] is the recursive call on [new_separators], absent when
    [new_separators] is empty. *)
Fixpoint split_loop (deeper : option (str → option (list str)))
    (splits final_chunks _good_splits : list str) : option (list str) :=
  match splits with
  | [] => merge_good final_chunks _good_splits
  | s :: splits' =>
      if (len s <? _chunk_size self)%Z then
        split_loop deeper splits' final_chunks (_good_splits ++ [s])
      else
        final_chunks ← merge_good final_chunks _good_splits;
        other_info ← match deeper with
                     | None => Some [s]
                     | Some _split_text => _split_text s
                     end;
        split_loop deeper splits' (final_chunks ++ other_info) []
  end.

(** [self._split_text(text, separators)].  The search for the separator
    (the first one that is empty or occurs in [text], else the last one)
    is folded into the recursion on [separators]: a separator that does
    not occur is passed over, and [new_separators] is the list after the
    one chosen.  [separators[-1]] on an empty list is an [IndexError]. *)
Fixpoint _split_text (separators : list str) (text : str)
    : option (list str) :=
  match separators with
  | [] => None
  | _s :: rest =>
      let deeper :=
        match rest with
        | [] => None
        | _ => Some (_split_text rest)
        end in
      match _s with
      | [] => split_loop None (_split_text_with_regex text []) [] []
      | _ =>
          if contains text _s then
            split_loop deeper (_split_text_with_regex text _s) [] []
          else
            match rest with
            | [] => split_loop None (_split_text_with_regex text _s) [] []
            | _ => _split_text rest text
            end
      end
  end.

(** [self.split_text(text)] *)
Definition split_text (text : str) : option (list str) :=
  _split_text (_separators self) text.

(** [self.create_documents(texts, metadatas)], through
    [split_documents]: every chunk of a document carries a copy of the
    metadata of the document. *)
Fixpoint split_documents (documents : list Document)
    : option (list Document) :=
  match documents with
  | [] => Some []
  | doc :: documents' =>
      chunks ← split_text (page_content doc);
      more ← split_documents documents';
      Some (map (λ c, mkDocument c (metadata doc)) chunks ++ more)
  end.

(** The history of the chunks, as for [merge_windows]. *)
Definition merge_good_windows (final_chunks : list window)
    (_good_splits : list str) : option (list window) :=
  match _good_splits with
  | [] => Some final_chunks
  | _ => merged ← merge_windows self [] _good_splits;
         Some (final_chunks ++ merged)
  end.

Fixpoint split_loop_windows (deeper : option (str → option (list window)))
    (splits : list str) (final_chunks : list window)
    (_good_splits : list str) : option (list window) :=
  match splits with
  | [] => merge_good_windows final_chunks _good_splits
  | s :: splits' =>
      if (len s <? _chunk_size self)%Z then
        split_loop_windows deeper splits' final_chunks (_good_splits ++ [s])
      else
        final_chunks ← merge_good_windows final_chunks _good_splits;
        other_info ← match deeper with
                     | None => Some [mkWindow 0 [s] (Some s)]
                     | Some _split_text => _split_text s
                     end;
        split_loop_windows deeper splits' (final_chunks ++ other_info) []
  end.

Fixpoint _split_text_windows (separators : list str) (text : str)
    : option (list window) :=
  match separators with
  | [] => None
  | _s :: rest =>
      let deeper :=
        match rest with
        | [] => None
        | _ => Some (_split_text_windows rest)
        end in
      match _s with
      | [] => split_loop_windows None (_split_text_with_regex text []) [] []
      | _ =>
          if contains text _s then
            split_loop_windows deeper (_split_text_with_regex text _s) [] []
          else
            match rest with
            | [] =>
                split_loop_windows None (_split_text_with_regex text _s)
                  [] []
            | _ => _split_text_windows rest text
            end
      end
  end.

Definition split_text_windows (text : str) : option (list window) :=
  _split_text_windows (_separators self) text.
End split_text.

(** Lines 12 to 21 of [embed_documents.py]: [docs_dir] is the listing of
    the markdown directory with the text of each file; [TextLoader.load]
    gives one document per file, with its path as the ["source"]. *)
Definition docs_dir : str := lit "cleaned-markdown".

Definition load_docs (listing : list (str * str)) : list Document :=
  flat_map (λ '(filename, text),
              if endswith filename (lit ".md")
              then [mkDocument text
                      [(lit "source", docs_dir ++ lit "/" ++ filename)]]
              else [])
    listing.

Definition chunks (listing : list (str * str)) : option (list Document) :=
  split_documents splitter (load_docs listing).

(** *** What the chunks of a document are

    The vocabulary of the properties of the splitter. *)

(** The leading pieces of a window that repeat the window before it, and
    the pieces that are new in it. *)
Definition kept (w : window) : list str := take (kept_pieces w) (pieces w).
Definition fresh (w : window) : list str := drop (kept_pieces w) (pieces w).

(** A window that follows a window with the pieces [prev]: it starts with
    pieces from the end of [prev], of at most [overlap] characters in all,
    and goes on with at least one new piece. *)
Definition repeats_end_of (overlap : Z) (prev : list str) (w : window)
    : Prop :=
  kept_pieces w < length (pieces w)
  ∧ kept w `suffix_of` prev
  ∧ (len (concat (kept w)) ≤ overlap)%Z.

Fixpoint chained (overlap : Z) (prev : list str) (ws : list window) : Prop :=
  match ws with
  | [] => True
  | w :: ws' => repeats_end_of overlap prev w ∧ chained overlap (pieces w) ws'
  end.

(** The pieces of the last window of [ws], or [prev] when there is none. *)
Definition last_pieces (prev : list str) (ws : list window) : list str :=
  from_option pieces prev (last ws).

(** The chunk of a window, when it has one, is at most [size] long. *)
Definition within (size : Z) (w : window) : Prop :=
  ∀ c, chunk w = Some c → (len c ≤ size)%Z.

(** The chunk of a window is its pieces put together and stripped. *)
Definition joined (w : window) : Prop :=
  chunk w = _join_docs (pieces w) [].

(** The chunks that the windows gave, in order. *)
Definition chunks_of (ws : list window) : list str := omap chunk ws.

(** The windows of a text, in order: each one starts with at most
    [_chunk_overlap] characters from the end of the one before it, its chunk
    is its pieces joined and stripped, and is at most [_chunk_size] long. *)
Definition well_chunked (self : TextSplitter) (ws : list window) : Prop :=
  chained (_chunk_overlap self) [] ws
  ∧ Forall (within (_chunk_size self)) ws
  ∧ Forall joined ws.

(** The text that the new pieces of the windows spell, in order. *)
Definition covered (ws : list window) : str := concat (flat_map fresh ws).

(** The window [s] can go on with the piece [d]: the condition on which
    the inner [while] of [_merge_splits] stops dropping pieces.  [s] has at
    most [_chunk_overlap] characters and, with [d], at most [_chunk_size],
    or [s] is empty. *)
Definition fits (self : TextSplitter) (s : list str) (d : str) : Prop :=
  (len (concat s) ≤ _chunk_overlap self)%Z
  ∧ ((len (concat s) + len d ≤ _chunk_size self)%Z
     ∨ (len (concat s) ≤ 0)%Z).

(** A window that follows, in one call of [_merge_splits], a window with
    the pieces [prev].  Its first new piece [d] did not go into [prev],
    which it would have taken over [_chunk_size]; the window starts with
    pieces from the end of [prev] that fit with [d], and no longer run of
    pieces from the end of [prev] fits: it repeats the longest one. *)
Definition keeps_longest (self : TextSplitter) (prev : list str)
    (w : window) : Prop :=
  ∃ d,
    head (fresh w) = Some d
    ∧ (_chunk_size self < len (concat prev) + len d)%Z
    ∧ kept w `suffix_of` prev
    ∧ fits self (kept w) d
    ∧ ∀ s, s `suffix_of` prev → length (kept w) < length s →
           ¬ fits self s d.

(** The first window of a call of [_merge_splits] repeats nothing. *)
Definition starts (self : TextSplitter) (prev : option (list str))
    (w : window) : Prop :=
  match prev with
  | None => kept_pieces w = 0
  | Some prev => keeps_longest self prev w
  end.

Fixpoint run_from (self : TextSplitter) (prev : option (list str))
    (ws : list window) : Prop :=
  match ws with
  | [] => True
  | w :: ws' => starts self prev w ∧ run_from self (Some (pieces w)) ws'
  end.

(** A run: the windows of one call of [_merge_splits], which is given the
    new pieces of the run, each shorter than [_chunk_size]. *)
Definition merged_run (self : TextSplitter) (run : list window) : Prop :=
  run_from self None run
  ∧ Forall (λ d, len d < _chunk_size self)%Z (flat_map fresh run)
  ∧ merge_windows self [] (flat_map fresh run) = Some run.

(** The windows [ws] are runs, one after the other. *)
Definition in_runs (self : TextSplitter) (ws : list window) : Prop :=
  ∃ runs, ws = concat runs ∧ Forall (merged_run self) runs.

(** What the recursive call must provide for the loop of [_split_text]:
    with no separator left, every piece is short enough to be merged. *)
Definition deeper_ok (self : TextSplitter)
    (deeper : option (str → option (list window))) (splits : list str)
    : Prop :=
  match deeper with
  | None => Forall (λ s, len s < _chunk_size self)%Z splits
  | Some _split_text =>
      ∀ s, ∃ ws, _split_text s = Some ws
                 ∧ well_chunked self ws ∧ covered ws = s
  end.

(** [deeper] and its history agree. *)
Definition deeper_erase (deeper : option (str → option (list str)))
    (deeper_w : option (str → option (list window))) : Prop :=
  match deeper, deeper_w with
  | None, None => True
  | Some f, Some g => ∀ s, f s = chunks_of <$> g s
  | _, _ => False
  end.

(** Three paragraphs of 300 characters each. *)
Definition three_paragraphs : str :=
  replicate 300 97%N ++ nl ++ nl ++ replicate 300 98%N ++ nl ++ nl
  ++ replicate 300 99%N.

(** The last [n] characters of [c1] are the first [n] characters of [c2]. *)
Definition overlaps_exactly (n : nat) (c1 c2 : str) : Prop :=
  n ≤ length c1 ∧ n ≤ length c2 ∧ drop (length c1 - n) c1 = take n c2.

(** The reading of "consecutive chunks overlap by exactly [n] characters,
    except possibly the final chunk" on the chunks of one text. *)
Definition exact_overlap (n : nat) (text : str) : Prop :=
  ∀ chunks i c1 c2,
    split_text splitter text = Some chunks →
    chunks !! i = Some c1 → chunks !! S i = Some c2 →
    S (S i) < length chunks →
    overlaps_exactly n c1 c2.

(** ** Documents of the scenarios and readings of the claims *)

Definition text (s : string) : node := NavigableString Text (lit s).

Definition attr (key value : string) : str * str := (lit key, lit value).

Definition element (name : string) (attrs : list (str * str))
    (contents : list node) : node :=
  Tag (lit name) attrs contents.

Definition paris : node :=
  element "div" [attr "id" "mw-content-text"]
    [element "p" [] [text "Paris is the capital of France."]].

Definition navbox : node :=
  element "div" [attr "class" "navbox"] [text "Navigation"].

(** The main-content element and a navigation box, in a file with no
    [body] element. *)
Definition paris_fragment : node := BeautifulSoup [paris; navbox].

(** The same inside [html] and [body]. *)
Definition paris_page : node :=
  BeautifulSoup [element "html" [] [element "body" [] [paris; navbox]]].

(** The reading of "the body of the cleaned document contains only the
    main-content element" after lines 10 to 13. *)
Definition body_is_main_content (soup : node) : Prop :=
  ∀ content_root c,
    content_root_of soup = Some content_root →
    lookup_path content_root soup = Some c →
    ∃ soup' body name attrs,
      retain_main_content soup = Return soup'
      ∧ body_of soup' = Some body
      ∧ lookup_path body soup' = Some (Tag name attrs [c]).

(** A document whose first [body] is inside the main-content element. *)
Definition body_inside : node :=
  BeautifulSoup
    [element "div" [attr "id" "mw-content-text"]
       [element "body" [] [text "Paris is the capital of France."]];
     element "body" [] [navbox]].

(** The same, with a string after that [body]. *)
Definition body_inside_before_text : node :=
  BeautifulSoup
    [element "div" [attr "id" "mw-content-text"]
       [element "body" [] [text "Paris is the capital of France."];
        text "Retrieved 2024."];
     element "body" [] [navbox]].

(** A page with a "See also" section between two other sections. *)
Definition see_also_heading : node :=
  element "h2" [] [element "span" [attr "id" "See_also"] [text "See also"]].

Definition see_also_list : node :=
  element "ul" [] [element "li" [] [text "Paris"]].

Definition references_heading : node :=
  element "h2" [] [element "span" [attr "id" "References"] [text "References"]].

Definition see_also_page : node :=
  BeautifulSoup
    [element "html" []
       [element "body" []
          [element "div" [attr "id" "mw-content-text"]
             [element "p" [] [text "Rome is the capital of Italy."];
              see_also_heading;
              see_also_list;
              references_heading;
              element "p" [] [text "Livy, History of Rome."]]]]].

(** A directory [raw-html] with two files: [a.html] has the main-content
    element and no [body], [b.html] is a whole page. *)
Definition two_files : world :=
  {| files := {[ path_join input_dir (lit "a.html") := Html paris_fragment;
                 path_join input_dir (lit "b.html") := Html paris_page ]};
     texts := ∅;
     raw_html := Some [lit "a.html"; lit "b.html"];
     stdout := [] |}.

(** A directory [raw-html] with a whole page and a file that is not
    HTML. *)
Definition paris_only : world :=
  {| files := {[ path_join input_dir (lit "paris.html") := Html paris_page ]};
     texts := ∅;
     raw_html := Some [lit "paris.html"; lit "notes.txt"];
     stdout := [] |}.

(** The reading of "a failure on one file does not abort the processing
    of the remaining files": every file of the listing that the loop body
    can process is cleaned by the run. *)
Definition every_good_file_is_cleaned
    (partition_html : node → outcome (list str)) (w : world) : Prop :=
  ∀ names name,
    raw_html w = Some names → name ∈ names →
    (process partition_html name w).1 = Return () →
    endswith name (lit ".html") = true →
    is_Some (files (main partition_html w).2 !! path_join temp_dir name).

(** *** The section removal in the words of the specification *)

(** A heading of any level. *)
Definition is_heading (n : node) : bool :=
  match name_of n with
  | Some name =>
      bool_decide (name ∈ [lit "h1"; lit "h2"; lit "h3"; lit "h4"; lit "h5";
                           lit "h6"])
  | None => false
  end.

Fixpoint from_next_heading (rest : list node) : list node :=
  match rest with
  | [] => []
  | x :: rest' => if is_heading x then rest else from_next_heading rest'
  end.

(** "Remove every following sibling node up to (but not including) the next
    heading of any level, then remove the heading itself." *)
Definition section_removed (siblings : list node) (heading : nat)
    : list node :=
  take heading siblings ++ from_next_heading (drop (S heading) siblings).

(** ** Vocabulary of the further properties *)

(** [c] occurs in [text] as a run of consecutive characters. *)
Definition substring_of (c text : str) : Prop := ∃ a b, text = a ++ c ++ b.

(** [c] is not empty and neither starts nor ends with whitespace. *)
Definition trimmed (c : str) : Prop :=
  c ≠ []
  ∧ (∀ x, head c = Some x → isspace x = false)
  ∧ (∀ x, last c = Some x → isspace x = false).

(** A string that the [lambda] of line 24 accepts. *)
Definition is_junk_string (n : node) : bool :=
  match n with
  | NavigableString _ s => junk s
  | Tag _ _ _ => false
  end.

(** The strings of a tree, in document order. *)
Fixpoint strings_of (n : node) : list str :=
  match n with
  | NavigableString _ s => [s]
  | Tag _ _ contents => flat_map strings_of contents
  end.

(** The tags of a tree with their attributes, in document order. *)
Fixpoint tags_of (n : node) : list (str * list (str * str)) :=
  match n with
  | NavigableString _ _ => []
  | Tag name attrs contents => (name, attrs) :: flat_map tags_of contents
  end.

(** No element of [n], [n] included, is selected by [sel]; [inside] tells
    whether an ancestor of [n] has the class that a [Descendant] selector
    asks for. *)
Fixpoint free_of (sel : selector) (inside : bool) (n : node) : bool :=
  match n with
  | NavigableString _ _ => true
  | Tag _ _ contents =>
      negb (selected sel inside n)
      && forallb (free_of sel (enters sel inside n)) contents
  end.

(** A list inside the parser output, and one in a footer outside it. *)
Definition languages : node :=
  BeautifulSoup
    [element "div" [attr "class" "mw-parser-output"]
       [element "ul" [attr "class" "hlist"] [text "Europe"];
        element "p" [] [text "Paris is the capital of France."]];
     element "div" [attr "class" "footer"]
       [element "ul" [attr "class" "hlist"] [text "English"]]].

(** A marker in two pieces, around an element that the cleaner removes. *)
Definition split_marker : node :=
  BeautifulSoup
    [element "p" []
       [text "wi"; element "span" [attr "class" "navbox"] [text "x"];
        text "ki."]].

(** The name of the markdown file of [filename] (line 65). *)
Definition markdown_path (filename : str) : str :=
  path_join output_dir (replace filename (lit ".html") (lit ".md")).

(** The file [filename] of [raw-html] in the world [w] holds a document
    that the cleaner turns into [out], and [partition_html] finds in [out]
    the elements whose texts, joined by blank lines, are [content]. *)
Definition converted (partition_html : node → outcome (list str))
    (w : world) (filename : str) (out : node) (content : str) : Prop :=
  ∃ soup elements,
    files w !! path_join input_dir filename = Some (Html soup)
    ∧ clean_soup soup = Return out
    ∧ partition_html out = Return elements
    ∧ content = join (nl ++ nl) elements.

(** What the passes of the loop for the names [names] have left in [w],
    in a run that started in [w0]: for every name that ends in [.html], the
    cleaned file holds the cleaned document of the raw file; and the
    markdown file holds the text of a file among [names] that has this
    markdown file ([replace] gives two names the same one when they differ
    only in [.html] and [.md] before the ending). *)
Definition outputs_of (partition_html : node → outcome (list str))
    (w0 : world) (names : list str) (w : world) : Prop :=
  ∀ name, name ∈ names → endswith name (lit ".html") = true →
    (∃ out content,
       converted partition_html w0 name out content
       ∧ files w !! path_join temp_dir name = Some (Html out))
    ∧ (∃ name' out content,
         name' ∈ names ∧ endswith name' (lit ".html") = true
         ∧ markdown_path name' = markdown_path name
         ∧ converted partition_html w0 name' out content
         ∧ texts w !! markdown_path name = Some content).

(** The line that the script prints when it ends (line 69). *)
Definition closing_message : str :=
  [9989%N] ++ lit " HTML cleaned and converted to markdown.".

(* ================================================================== *)
(** * Part II: theorems *)
(* ================================================================== *)

(** ** The query tool *)

Lemma for_enumerate_blocks (results : list Document) (i : nat) (p : str) :
  for_enumerate (λ i doc prompt, prompt ++ source_block i doc) i results p
  = p ++ concat (imap (λ j doc, source_block (i + j) doc) results).
Proof.
  revert i p.
  induction results as [|doc results IH]; intros i p;
    cbn [for_enumerate imap concat].
  - by rewrite app_nil_r.
  - rewrite IH, <- app_assoc, Nat.add_0_r. do 3 f_equal.
    apply imap_ext. intros j d _. unfold compose. f_equal. lia.
Qed.

Lemma prompt_unfold (query : str) (results : list Document) :
  prompt query results
  = preamble ++ concat (imap source_block results) ++ question_block query.
Proof.
  unfold prompt. rewrite for_enumerate_blocks, <- app_assoc. done.
Qed.

Lemma source_blocks_content (results : list Document) :
  imap source_block results
  = imap (λ i text, source_block i (mkDocument text []))
      (page_content <$> results).
Proof. rewrite imap_fmap. apply imap_ext. by intros i [text meta] _. Qed.

(** C5: the prompt is the preamble, then one block per retrieved chunk,
    labelled [Source 1], [Source 2], ... in the order of the result list,
    then the query and the [Answer:] cue; so it ends with
    ["User's question: "], the query, a blank line and ["Answer:"]. *)
Theorem prompt_layout (query : str) (results : list Document) :
  prompt query results
  = lit "You are an expert. Use the following information to answer the user's question."
    ++ nl ++ nl
    ++ concat (imap (λ i doc,
                       lit "[Source " ++ str_of_nat (S i) ++ lit "]" ++ nl
                       ++ page_content doc ++ nl ++ nl) results)
    ++ lit "User's question: " ++ query ++ nl ++ nl ++ lit "Answer:"
  ∧ (lit "User's question: " ++ query ++ nl ++ nl ++ lit "Answer:")
    `suffix_of` prompt query results.
Proof.
  rewrite prompt_unfold. split.
  - unfold preamble, question_block. rewrite <- !app_assoc. do 5 f_equal.
    apply imap_ext. intros i doc _. unfold source_block.
    by rewrite Nat.add_1_r.
  - exists (preamble ++ concat (imap source_block results)).
    unfold question_block. by rewrite <- app_assoc.
Qed.

Lemma console_bind_println (line : str) (k : Console unit) :
  (println line ;;C k) = (line ++ nl ++ k.1, k.2).
Proof.
  unfold console_bind, println. destruct k as [more o].
  by rewrite <- app_assoc.
Qed.

(** C6: with the libraries as the specification describes them on an index
    that is empty or was never written, and a question on the standard
    input, the search of line 14 returns no result, and the script ends
    normally after writing the text of [input], the banner, the opening
    marker, a prompt made of the preamble, the question and the [Answer:]
    cue, with no [Source] block, and the closing marker. *)
Theorem empty_index_prompt {Embeddings VectorStore : Type}
    (HuggingFaceEmbeddings : str → outcome Embeddings)
    (Chroma : str → Embeddings → outcome VectorStore)
    (similarity_search : VectorStore → str → nat → outcome (list Document))
    (query : str) :
  empty_index HuggingFaceEmbeddings Chroma similarity_search →
  (∃ embedding vectordb,
     HuggingFaceEmbeddings embedding_model = Return embedding
     ∧ Chroma persist_dir embedding = Return vectordb
     ∧ similarity_search vectordb query top_k = Return [])
  ∧ query_with_context HuggingFaceEmbeddings Chroma similarity_search
      (Some query)
    = ([128269%N] ++ lit " Enter your question: "
       ++ nl ++ [128203%N] ++ lit " Copy this prompt into your LLM chat:"
       ++ nl
       ++ lit "======== COPY BELOW ========" ++ nl
       ++ lit "You are an expert. Use the following information to answer the user's question."
       ++ nl ++ nl
       ++ lit "User's question: " ++ query ++ nl ++ nl ++ lit "Answer:"
       ++ nl
       ++ lit "======== COPY ABOVE ========" ++ nl,
       Return ()).
Proof.
  intros (embedding & vectordb & Hmodel & Hstore & Hsearch). split.
  - exists embedding, vectordb. by rewrite Hsearch.
  - unfold query_with_context, call, input.
    rewrite Hmodel. cbn [console_bind]. rewrite Hstore. cbn [console_bind].
    rewrite Hsearch. cbn [console_bind].
    rewrite !console_bind_println. unfold println, prompt, preamble,
      question_block. cbn [for_enumerate fst snd].
    by rewrite <- !app_assoc.
Qed.

Lemma empty_index_prompt_witness :
  (∃ embedding vectordb,
     model_loads embedding_model = Return embedding
     ∧ store_opens persist_dir embedding = Return vectordb
     ∧ finds_nothing vectordb (lit "What is the capital of France?") top_k
       = Return [])
  ∧ query_with_context model_loads store_opens finds_nothing
      (Some (lit "What is the capital of France?"))
    = ([128269%N] ++ lit " Enter your question: "
       ++ nl ++ [128203%N] ++ lit " Copy this prompt into your LLM chat:"
       ++ nl
       ++ lit "======== COPY BELOW ========" ++ nl
       ++ lit "You are an expert. Use the following information to answer the user's question."
       ++ nl ++ nl
       ++ lit "User's question: " ++ lit "What is the capital of France?"
       ++ nl ++ nl ++ lit "Answer:"
       ++ nl
       ++ lit "======== COPY ABOVE ========" ++ nl,
       Return ()).
Proof.
  apply (empty_index_prompt model_loads store_opens finds_nothing).
  by exists (), ().
Defined.

(** Without a line on the standard input the script raises at line 13,
    after the text of [input] was written; a failure of a library ends the
    script where it is raised. *)
Example query_without_input :
  query_with_context model_loads store_opens finds_nothing None
  = ([128269%N] ++ lit " Enter your question: ", Raise EOFError)
  ∧ query_with_context model_loads store_fails finds_nothing
      (Some (lit "What is the capital of France?"))
    = ([], Raise LibraryError).
Proof. split; reflexivity. Qed.

(** C9: the prompt is a function of the query and of the texts of the
    retrieved chunks in their order: two runs that agree on these print the
    same prompt, whatever else differs between them. *)
Theorem prompt_deterministic (query : str) (results1 results2 : list Document) :
  page_content <$> results1 = page_content <$> results2 →
  prompt query results1 = prompt query results2.
Proof.
  intros Heq. rewrite !prompt_unfold, !source_blocks_content, Heq. done.
Qed.

Lemma prompt_deterministic_witness :
  prompt (lit "What is the capital of France?")
    [mkDocument (lit "Paris is the capital of France.")
       [(lit "source", lit "cleaned-markdown/a.md")]]
  = prompt (lit "What is the capital of France?")
      [mkDocument (lit "Paris is the capital of France.") []].
Proof. apply prompt_deterministic. reflexivity. Defined.

Example prompt_paris :
  prompt (lit "What is the capital of France?")
    [mkDocument (lit "Paris is the capital of France.") []]
  = lit "You are an expert. Use the following information to answer the user's question."
    ++ nl ++ nl ++ lit "[Source 1]" ++ nl
    ++ lit "Paris is the capital of France." ++ nl ++ nl
    ++ lit "User's question: What is the capital of France?" ++ nl ++ nl
    ++ lit "Answer:".
Proof. vm_compute. reflexivity. Qed.

(** ** Python strings: lengths *)

Lemma len_nonneg {A} (l : list A) : (0 ≤ len l)%Z.
Proof. unfold len. lia. Qed.

Lemma len_app {A} (l k : list A) : len (l ++ k) = (len l + len k)%Z.
Proof. unfold len. rewrite length_app. lia. Qed.

Lemma len_nil_inv {A} (l : list A) : len l = 0%Z → l = [].
Proof. destruct l; [done|]. unfold len. simpl. lia. Qed.

Lemma lstrip_suffix (s : str) : lstrip s `suffix_of` s.
Proof.
  induction s as [|c s IH]; simpl; [done|].
  destruct (isspace c); [by apply suffix_cons_r | done].
Qed.

Lemma lstrip_length (s : str) : length (lstrip s) ≤ length s.
Proof. apply suffix_length, lstrip_suffix. Qed.

Lemma strip_length (s : str) : length (strip s) ≤ length s.
Proof.
  unfold strip. rewrite length_rev.
  etrans; [apply lstrip_length|]. rewrite length_rev. apply lstrip_length.
Qed.

Lemma join_nil_sep (l : list str) : join [] l = concat l.
Proof.
  induction l as [|x l IH]; [done|].
  destruct l as [|y l]; simpl in *; [by rewrite app_nil_r|].
  by rewrite IH.
Qed.

Lemma _join_docs_bound (docs : list str) (d : str) :
  _join_docs docs [] = Some d → (len d ≤ len (concat docs))%Z.
Proof.
  unfold _join_docs. rewrite join_nil_sep.
  pose proof (strip_length (concat docs)) as Hs.
  destruct (strip (concat docs)) eqn:E; [done|].
  intros [= <-]. unfold len. lia.
Qed.

(** ** Python strings: splitting and joining *)

Lemma startswith_spec (s p : str) :
  startswith s p = true ↔ s = p ++ drop (length p) s.
Proof.
  revert s. induction p as [|a p IH]; intros s.
  - by destruct s.
  - destruct s as [|b s]; simpl; [done|].
    destruct (decide (a = b)) as [->|Hne].
    + rewrite IH. split; [by intros <-|by intros [=]].
    + split; [done|]. by intros [=].
Qed.

Lemma join_cons_head (sep : str) (c : N) (x : str) (l : list str) :
  join sep ((c :: x) :: l) = c :: join sep (x :: l).
Proof. by destruct l. Qed.

Lemma join_cons_cons (sep x y : str) (l : list str) :
  join sep (x :: y :: l) = x ++ sep ++ join sep (y :: l).
Proof. done. Qed.

Lemma split_go_join (sep s : str) (skip : nat) :
  sep ≠ [] →
  join sep ((split_go sep s skip).1 :: (split_go sep s skip).2)
  = drop skip s.
Proof.
  intros Hsep. revert skip.
  induction s as [|c s IH]; intros skip; [by destruct skip|].
  cbn [split_go]. destruct skip as [|k]; [|apply IH].
  destruct (startswith (c :: s) sep) eqn:Hstart.
  - specialize (IH (length sep - 1)).
    destruct (split_go sep s (length sep - 1)) as [piece more].
    cbn [fst snd] in *. rewrite join_cons_cons, IH. simpl.
    apply startswith_spec in Hstart.
    destruct sep as [|a sep]; [done|]. simpl in *.
    by rewrite Nat.sub_0_r.
  - specialize (IH 0). destruct (split_go sep s 0) as [piece more].
    cbn [fst snd] in *. rewrite join_cons_head, IH. done.
Qed.

(** Joining the pieces of a split with the separator gives the string
    back. *)
Lemma join_split (sep s : str) : sep ≠ [] → join sep (split sep s) = s.
Proof.
  intros Hsep. unfold split.
  pose proof (split_go_join sep s 0 Hsep) as H.
  destruct (split_go sep s 0) as [piece more]. exact H.
Qed.

Lemma concat_keep_separator (sep first : str) (others : list str) :
  concat (first :: map (λ t, sep ++ t) others) = join sep (first :: others).
Proof.
  revert first. induction others as [|x others IH]; intros first.
  - simpl. by rewrite app_nil_r.
  - specialize (IH x). simpl in *. by rewrite <- IH, <- app_assoc.
Qed.

Lemma concat_filter_nonempty (l : list str) :
  concat (filter (λ s, s ≠ []) l) = concat l.
Proof.
  induction l as [|x l IH]; [done|]. rewrite filter_cons.
  destruct (decide (x ≠ [])) as [Hx|Hx]; simpl; [by rewrite IH|].
  apply dec_stable in Hx. by rewrite Hx, IH.
Qed.

(** The pieces of [_split_text_with_regex] spell the text. *)
Lemma concat_split_text_with_regex (text separator : str) :
  concat (_split_text_with_regex text separator) = text.
Proof.
  unfold _split_text_with_regex. rewrite concat_filter_nonempty.
  destruct separator as [|a separator].
  - induction text as [|c text IH]; simpl; [done|]. by rewrite IH.
  - pose proof (join_split (a :: separator) text ltac:(done)) as Hjoin.
    destruct (split (a :: separator) text) as [|first others]; [done|].
    by rewrite concat_keep_separator.
Qed.

Lemma len_split_chars (text : str) :
  Forall (λ s, len s = 1%Z) (_split_text_with_regex text []).
Proof.
  unfold _split_text_with_regex.
  induction text as [|c text IH]; [by apply Forall_nil|].
  cbn [map]. rewrite filter_cons. destruct (decide ([c] ≠ [])); [|done].
  by apply Forall_cons.
Qed.

(** ** The splitter *)

Lemma chained_nil_any (overlap : Z) (ws : list window) (prev : list str) :
  chained overlap [] ws → chained overlap prev ws.
Proof.
  destruct ws as [|w ws]; [done|]. intros [(Hlt & Hsuf & Hlen) Hrest].
  split; [|done]. split_and!; [done| |done].
  apply suffix_nil_inv in Hsuf. rewrite Hsuf. apply suffix_nil.
Qed.

Lemma chained_snoc (overlap : Z) (ws : list window) (prev : list str)
    (w : window) :
  chained overlap prev ws →
  repeats_end_of overlap (last_pieces prev ws) w →
  chained overlap prev (ws ++ [w]).
Proof.
  revert prev. induction ws as [|v ws IH]; intros prev Hws Hw; simpl.
  - done.
  - destruct Hws as [Hv Hws]. split; [done|]. apply IH; [done|].
    unfold last_pieces in *. destruct ws as [|u ws]; [done|].
    change (last (v :: u :: ws)) with (last (u :: ws)) in Hw.
    destruct (last (u :: ws)) eqn:E; [done|]. by apply last_None in E.
Qed.

Lemma chained_app (overlap : Z) (ws1 ws2 : list window) (prev : list str) :
  chained overlap prev ws1 → chained overlap [] ws2 →
  chained overlap prev (ws1 ++ ws2).
Proof.
  revert prev. induction ws1 as [|v ws1 IH]; intros prev H1 H2; simpl.
  - by apply chained_nil_any.
  - destruct H1 as [Hv H1]. split; [done|]. by apply IH.
Qed.

Section merge_facts.
Variable self : TextSplitter.
Hypothesis overlap_nonneg : (0 ≤ _chunk_overlap self)%Z.

Lemma separator_len_nil : separator_len [] = 0%Z.
Proof. done. Qed.

Lemma keep_popping_false (_len total : Z) (current_doc : list str) :
  keep_popping self [] _len current_doc total = false →
  (total ≤ _chunk_overlap self)%Z
  ∧ ((total + _len ≤ _chunk_size self)%Z ∨ (total ≤ 0)%Z).
Proof.
  unfold keep_popping. rewrite separator_len_nil.
  destruct (0 <? len current_doc)%Z; lia.
Qed.

Lemma pop_front_spec (_len : Z) (current_doc : list str) :
  ∃ rest,
    pop_front self [] _len current_doc (len (concat current_doc))
    = Some (rest, len (concat rest))
    ∧ rest `suffix_of` current_doc
    ∧ keep_popping self [] _len rest (len (concat rest)) = false.
Proof.
  induction current_doc as [|first current_doc IH].
  - exists []. cbn [pop_front].
    assert (keep_popping self [] _len [] (len (concat [])) = false) as ->;
      [|done].
    unfold keep_popping. simpl. change (len []) with 0%Z. lia.
  - cbn [pop_front].
    destruct (keep_popping self [] _len (first :: current_doc) _) eqn:E.
    + destruct IH as (rest & Hpop & Hsuf & Hstop). exists rest.
      split_and!; [|by apply suffix_cons_r|done].
      rewrite <- Hpop. f_equal. rewrite separator_len_nil.
      simpl. rewrite len_app. destruct (1 <? _)%Z; lia.
    + exists (first :: current_doc). done.
Qed.

Lemma last_pieces_snoc (prev : list str) (ws : list window) (w : window) :
  last_pieces prev (ws ++ [w]) = pieces w.
Proof. unfold last_pieces. by rewrite last_snoc. Qed.

(** The invariant of the loop of [_merge_splits]: [total] is the length of
    the window [current_doc], which fits in a chunk; the first [n] pieces
    of the window come from the end of the window recorded last. *)
Lemma merge_loop_windows_spec (splits : list str) :
  ∀ (wins : list window) (current_doc : list str) (n : nat),
    Forall (λ d, len d ≤ _chunk_size self)%Z splits →
    chained (_chunk_overlap self) [] wins →
    Forall (within (_chunk_size self)) wins →
    Forall joined wins →
    (len (concat current_doc) ≤ _chunk_size self)%Z →
    n ≤ length current_doc →
    take n current_doc `suffix_of` last_pieces [] wins →
    (len (concat (take n current_doc)) ≤ _chunk_overlap self)%Z →
    (current_doc = [] → splits ≠ []) →
    (current_doc ≠ [] → n < length current_doc) →
    ∃ ws,
      merge_loop_windows self [] splits wins current_doc
        (len (concat current_doc)) n = Some ws
      ∧ chained (_chunk_overlap self) [] ws
      ∧ Forall (within (_chunk_size self)) ws
      ∧ Forall joined ws
      ∧ flat_map fresh ws
        = flat_map fresh wins ++ drop n current_doc ++ splits.
Proof using overlap_nonneg.
  induction splits as [|d splits IH];
    intros wins cd n Hsplits Hch Hin Hjo Hfit Hn Hsuf Hov Hne Hlt.
  - assert (cd ≠ []) as Hcd by (intros ->; by apply Hne).
    eexists. split; [reflexivity|].
    assert (repeats_end_of (_chunk_overlap self) (last_pieces [] wins)
              (mkWindow n cd (_join_docs cd []))) as Hw.
    { split_and!; simpl; auto. }
    split_and!.
    + by apply chained_snoc.
    + apply Forall_app. split; [done|]. apply Forall_singleton.
      intros c Hc. simpl in Hc. apply _join_docs_bound in Hc. lia.
    + apply Forall_app. split; [done|]. by apply Forall_singleton.
    + rewrite flat_map_app. simpl. unfold fresh at 2. simpl.
      by rewrite !app_nil_r.
  - apply Forall_cons in Hsplits as [Hd Hsplits].
    cbn [merge_loop_windows].
    set (total := len (concat cd)) in *.
    rewrite separator_len_nil.
    assert ((if (0 <? len cd)%Z then 0 else 0) = 0)%Z as ->
      by (by destruct (0 <? len cd)%Z).
    assert ((len (concat (cd ++ [d])) ≤ _chunk_size self)%Z →
            ∃ ws,
              merge_loop_windows self [] splits wins (cd ++ [d])
                (total + (len d +
                          (if (1 <? len (cd ++ [d]))%Z
                           then separator_len [] else 0)))%Z n = Some ws
              ∧ chained (_chunk_overlap self) [] ws
              ∧ Forall (within (_chunk_size self)) ws
              ∧ Forall joined ws
              ∧ flat_map fresh ws
                = flat_map fresh wins ++ drop n cd ++ d :: splits)
      as Happend.
    { intros Hfit'. rewrite separator_len_nil.
      assert ((if (1 <? len (cd ++ [d]))%Z then 0 else 0) = 0)%Z as ->
        by (by destruct (1 <? len (cd ++ [d]))%Z).
      assert (total + (len d + 0) = len (concat (cd ++ [d])))%Z as ->.
      { rewrite concat_app, len_app. simpl. rewrite app_nil_r.
        unfold total. lia. }
      destruct (IH wins (cd ++ [d]) n) as (ws & Hws & ? & ? & ? & Hfr);
        try done.
      * rewrite length_app. lia.
      * by rewrite take_app_le.
      * by rewrite take_app_le.
      * by destruct cd.
      * intros _. rewrite length_app. simpl. lia.
      * exists ws. split_and!; try done.
        rewrite Hfr, drop_app_le by done. by rewrite <- !app_assoc. }
    destruct (_chunk_size self <? total + len d + 0)%Z eqn:Hbig;
      [destruct (0 <? len cd)%Z eqn:Hcd|].
    + assert (cd ≠ []) as Hcd'.
      { intros ->. change (len []) with 0%Z in Hcd. lia. }
      destruct (pop_front_spec (len d) cd)
        as (rest & Hpop & Hrest & Hstop).
      fold total in Hpop. rewrite Hpop. cbn [mbind option_bind].
      apply keep_popping_false in Hstop as [Hstop1 Hstop2].
      pose proof (len_nonneg (concat rest)) as Hpos.
      assert ((if (1 <? len (rest ++ [d]))%Z then 0 else 0) = 0)%Z as ->
        by (by destruct (1 <? len (rest ++ [d]))%Z).
      assert (len (concat rest) + (len d + 0)
              = len (concat (rest ++ [d])))%Z as ->.
      { rewrite concat_app, len_app. simpl. rewrite app_nil_r. lia. }
      destruct (IH (wins ++ [mkWindow n cd (_join_docs cd [])])
                  (rest ++ [d]) (length rest)) as (ws & Hws & ? & ? & ? & Hfr).
      * done.
      * apply chained_snoc; [done|]. split_and!; simpl; auto.
      * apply Forall_app. split; [done|]. apply Forall_singleton.
        intros c Hc. simpl in Hc. apply _join_docs_bound in Hc.
        fold total in Hc. lia.
      * apply Forall_app. split; [done|]. by apply Forall_singleton.
      * rewrite concat_app, len_app. simpl. rewrite app_nil_r. lia.
      * rewrite length_app. lia.
      * rewrite last_pieces_snoc. simpl.
        by rewrite take_app_length.
      * by rewrite take_app_length.
      * by destruct rest.
      * rewrite length_app. simpl. lia.
      * exists ws. split_and!; try done.
        rewrite Hfr, flat_map_app. simpl. unfold fresh at 2. simpl.
        rewrite drop_app_length, !app_nil_r. by rewrite <- !app_assoc.
    + cbn [mbind option_bind]. apply Happend.
      pose proof (len_nonneg cd).
      assert (cd = []) as Hnil by (apply len_nil_inv; lia).
      rewrite Hnil. simpl. rewrite app_nil_r. lia.
    + cbn [mbind option_bind]. apply Happend.
      rewrite concat_app, len_app. simpl. rewrite app_nil_r.
      fold total. lia.
Qed.
End merge_facts.

Lemma well_chunked_nil (self : TextSplitter) : well_chunked self [].
Proof. by split_and!. Qed.

Lemma well_chunked_app (self : TextSplitter) (ws1 ws2 : list window) :
  well_chunked self ws1 → well_chunked self ws2 →
  well_chunked self (ws1 ++ ws2).
Proof.
  intros (? & ? & ?) (? & ? & ?). split_and!.
  - by apply chained_app.
  - by apply Forall_app.
  - by apply Forall_app.
Qed.

Lemma covered_app (ws1 ws2 : list window) :
  covered (ws1 ++ ws2) = covered ws1 ++ covered ws2.
Proof. unfold covered. by rewrite flat_map_app, concat_app. Qed.

Section split_facts.
Variable self : TextSplitter.
Hypothesis overlap_nonneg : (0 ≤ _chunk_overlap self)%Z.

Lemma merge_windows_spec (splits : list str) :
  splits ≠ [] →
  Forall (λ d, len d ≤ _chunk_size self)%Z splits →
  ∃ ws, merge_windows self [] splits = Some ws
        ∧ well_chunked self ws ∧ covered ws = concat splits.
Proof using overlap_nonneg.
  intros Hne Hsplits.
  destruct (merge_loop_windows_spec self overlap_nonneg splits [] [] 0)
    as (ws & Hws & ? & ? & ? & Hfr); simpl; try done.
  - change (len []) with 0%Z.
    destruct splits as [|d splits]; [done|].
    apply Forall_cons in Hsplits as [Hd _].
    pose proof (len_nonneg d). lia.
  - exists ws. split_and!; try done. unfold covered. by rewrite Hfr.
Qed.

Lemma merge_good_windows_spec (final_chunks : list window)
    (good : list str) :
  well_chunked self final_chunks →
  Forall (λ d, len d ≤ _chunk_size self)%Z good →
  ∃ ws, merge_good_windows self final_chunks good = Some ws
        ∧ well_chunked self ws
        ∧ covered ws = covered final_chunks ++ concat good.
Proof using overlap_nonneg.
  intros Hfc Hgood. destruct good as [|d good].
  - exists final_chunks. simpl. by rewrite app_nil_r.
  - destruct (merge_windows_spec (d :: good)) as (ws & Hws & ? & Hcov);
      [done|done|].
    exists (final_chunks ++ ws). unfold merge_good_windows.
    rewrite Hws. split_and!; [done| |].
    + by apply well_chunked_app.
    + by rewrite covered_app, Hcov.
Qed.

Lemma split_loop_windows_spec
    (deeper : option (str → option (list window))) (splits : list str) :
  ∀ (final_chunks : list window) (good : list str),
    deeper_ok self deeper splits →
    well_chunked self final_chunks →
    Forall (λ d, len d ≤ _chunk_size self)%Z good →
    ∃ ws, split_loop_windows self deeper splits final_chunks good = Some ws
          ∧ well_chunked self ws
          ∧ covered ws
            = covered final_chunks ++ concat good ++ concat splits.
Proof using overlap_nonneg.
  induction splits as [|s splits IH]; intros fc good Hdeep Hfc Hgood.
  - cbn [split_loop_windows concat]. rewrite app_nil_r.
    by apply merge_good_windows_spec.
  - cbn [split_loop_windows].
    assert (deeper_ok self deeper splits) as Hdeep'.
    { destruct deeper; [done|]. simpl in *. by eapply Forall_cons_1. }
    destruct (len s <? _chunk_size self)%Z eqn:Hs.
    + destruct (IH fc (good ++ [s])) as (ws & Hws & ? & Hcov); try done.
      { apply Forall_app. split; [done|]. apply Forall_singleton. lia. }
      exists ws. split_and!; [done|done|].
      rewrite Hcov, concat_app. simpl.
      by rewrite app_nil_r, <- !app_assoc.
    + destruct (merge_good_windows_spec fc good)
        as (fc' & Hfc' & ? & Hcov'); [done|done|].
      rewrite Hfc'. cbn [mbind option_bind].
      destruct deeper as [g|].
      * destruct (Hdeep s) as (other & Hother & ? & Hcov'').
        rewrite Hother. cbn [mbind option_bind].
        destruct (IH (fc' ++ other) []) as (ws & Hws & ? & Hcov);
          [done|by apply well_chunked_app|done|].
        exists ws. split_and!; [done|done|].
        rewrite Hcov, covered_app, Hcov', Hcov''. simpl.
        by rewrite <- !app_assoc.
      * simpl in Hdeep. apply Forall_cons_1 in Hdeep as [Hlt _]. lia.
Qed.

Hypothesis size_large : (1 < _chunk_size self)%Z.

(** The recursion of [_split_text] ends at the empty separator, which
    cuts the text into single characters. *)
Lemma _split_text_windows_spec (separators : list str) :
  [] ∈ separators →
  ∀ text, ∃ ws, _split_text_windows self separators text = Some ws
                ∧ well_chunked self ws ∧ covered ws = text.
Proof using overlap_nonneg size_large.
  induction separators as [|_s rest IH]; intros Hin text.
  - by apply elem_of_nil in Hin.
  - cbn [_split_text_windows].
    assert (∀ sep deeper,
              deeper_ok self deeper (_split_text_with_regex text sep) →
              ∃ ws, split_loop_windows self deeper
                      (_split_text_with_regex text sep) [] [] = Some ws
                    ∧ well_chunked self ws ∧ covered ws = text) as Hloop.
    { intros sep deeper Hdeep.
      destruct (split_loop_windows_spec deeper
                  (_split_text_with_regex text sep) [] [])
        as (ws & Hws & ? & Hcov); [done|apply well_chunked_nil|done|].
      exists ws. split_and!; [done|done|].
      by rewrite Hcov, concat_split_text_with_regex. }
    destruct _s as [|a _s].
    + apply Hloop. simpl.
      eapply Forall_impl; [apply len_split_chars|]. simpl. lia.
    + apply elem_of_cons in Hin as [Hin|Hin]; [done|].
      destruct rest as [|r rest]; [by apply elem_of_nil in Hin|].
      destruct (contains text (a :: _s)).
      * apply Hloop. simpl. by apply IH.
      * by apply IH.
Qed.
End split_facts.

(** *** The windows are the history of the chunks *)

Lemma append_doc_window (wins : list window) (n : nat) (cd : list str)
    (doc : option str) :
  append_doc (chunks_of wins) doc = chunks_of (wins ++ [mkWindow n cd doc]).
Proof.
  unfold chunks_of. rewrite omap_app.
  destruct doc; simpl; [done|by rewrite app_nil_r].
Qed.

Lemma chunks_of_app (ws1 ws2 : list window) :
  chunks_of (ws1 ++ ws2) = chunks_of ws1 ++ chunks_of ws2.
Proof. apply omap_app. Qed.

Lemma merge_loop_erase (self : TextSplitter) (separator : str)
    (splits : list str) :
  ∀ (wins : list window) current_doc total n,
    merge_loop self separator splits (chunks_of wins) current_doc total
    = chunks_of
      <$> merge_loop_windows self separator splits wins current_doc total n.
Proof.
  induction splits as [|d splits IH]; intros wins cd total n.
  - cbn [merge_loop merge_loop_windows fmap option_fmap option_map].
    by rewrite (append_doc_window _ n cd).
  - cbn [merge_loop merge_loop_windows].
    destruct (_ <? _)%Z; [destruct (0 <? len cd)%Z|];
      cbn [mbind option_bind]; try apply IH.
    destruct (pop_front self separator (len d) cd total) as [[rest t]|];
      cbn [mbind option_bind]; [|done].
    rewrite (append_doc_window _ n cd). apply IH.
Qed.

Lemma _merge_splits_erase (self : TextSplitter) (separator : str)
    (splits : list str) :
  _merge_splits self separator splits
  = chunks_of <$> merge_windows self separator splits.
Proof. apply (merge_loop_erase self separator splits []). Qed.

Lemma merge_good_erase (self : TextSplitter) (final_chunks : list window)
    (good : list str) :
  merge_good self (chunks_of final_chunks) good
  = chunks_of <$> merge_good_windows self final_chunks good.
Proof.
  destruct good as [|d good]; [done|].
  unfold merge_good, merge_good_windows. rewrite _merge_splits_erase.
  destruct (merge_windows self [] (d :: good)) as [ws|]; simpl; [|done].
  by rewrite chunks_of_app.
Qed.

Lemma split_loop_erase (self : TextSplitter) deeper deeper_w
    (splits : list str) :
  deeper_erase deeper deeper_w →
  ∀ (final_chunks : list window) good,
    split_loop self deeper splits (chunks_of final_chunks) good
    = chunks_of
      <$> split_loop_windows self deeper_w splits final_chunks good.
Proof.
  intros Hdeep. induction splits as [|s splits IH]; intros fc good.
  - apply merge_good_erase.
  - cbn [split_loop split_loop_windows].
    destruct (len s <? _chunk_size self)%Z; [apply IH|].
    rewrite merge_good_erase.
    destruct (merge_good_windows self fc good) as [fc'|]; simpl; [|done].
    destruct deeper as [f|], deeper_w as [g|]; try done; simpl.
    + rewrite (Hdeep s). destruct (g s) as [other|]; simpl; [|done].
      rewrite <- chunks_of_app. apply IH.
    + change [s] with (chunks_of [mkWindow 0 [s] (Some s)]).
      rewrite <- chunks_of_app. apply IH.
Qed.

Lemma _split_text_erase (self : TextSplitter) (separators : list str) :
  ∀ text,
    _split_text self separators text
    = chunks_of <$> _split_text_windows self separators text.
Proof.
  induction separators as [|_s rest IH]; intros text; [done|].
  cbn [_split_text _split_text_windows].
  destruct _s as [|a _s].
  - by apply (split_loop_erase self None None _ I [] []).
  - destruct (contains text (a :: _s)).
    + destruct rest as [|r rest].
      * by apply (split_loop_erase self None None _ I [] []).
      * by apply (split_loop_erase self (Some _) (Some _) _ IH [] []).
    + destruct rest as [|r rest]; [|apply IH].
      by apply (split_loop_erase self None None _ I [] []).
Qed.

Lemma split_text_erase (self : TextSplitter) (text : str) :
  split_text self text = chunks_of <$> split_text_windows self text.
Proof. apply _split_text_erase. Qed.

Lemma within_chunks_of (size : Z) (ws : list window) :
  Forall (within size) ws → Forall (λ c, len c ≤ size)%Z (chunks_of ws).
Proof.
  unfold chunks_of. induction 1 as [|w ws Hw _ IH]; simpl; [done|].
  destruct (chunk w) as [c|] eqn:Hc; [|done]. apply Forall_cons. auto.
Qed.

Lemma chained_lookup (overlap : Z) (ws : list window) (prev : list str)
    (i : nat) (w1 w2 : window) :
  chained overlap prev ws → ws !! i = Some w1 → ws !! S i = Some w2 →
  repeats_end_of overlap (pieces w1) w2.
Proof.
  revert prev i. induction ws as [|v ws IH]; intros prev i Hch H1 H2; [done|].
  destruct Hch as [_ Hch]. destruct i as [|i].
  - injection H1 as <-. destruct ws as [|u ws]; [done|].
    injection H2 as <-. by destruct Hch.
  - by eapply IH.
Qed.

(** *** The runs of windows *)

Section run_facts.
Variable self : TextSplitter.
Hypothesis overlap_nonneg : (0 ≤ _chunk_overlap self)%Z.

Lemma keep_popping_fits (d : str) (s current_doc : list str) :
  keep_popping self [] (len d) current_doc (len (concat s)) = false
  ↔ fits self s d.
Proof.
  unfold keep_popping, fits. rewrite separator_len_nil.
  destruct (0 <? len current_doc)%Z; lia.
Qed.

(** The inner [while] stops at the longest window that fits. *)
Lemma pop_front_longest (d : str) (current_doc : list str) :
  ∀ rest t,
    pop_front self [] (len d) current_doc (len (concat current_doc))
    = Some (rest, t) →
    ∀ s, s `suffix_of` current_doc → length rest < length s →
         ¬ fits self s d.
Proof.
  induction current_doc as [|first current_doc IH]; intros rest t.
  - cbn [pop_front]. destruct (keep_popping _ _ _ _ _); [done|].
    intros [= <- _] s ->%suffix_nil_inv. simpl. lia.
  - cbn [pop_front].
    destruct (keep_popping self [] (len d) (first :: current_doc) _) eqn:E.
    + assert (len (concat (first :: current_doc))
              - (len first
                 + (if (1 <? len (first :: current_doc))%Z
                    then separator_len [] else 0))
              = len (concat current_doc))%Z as ->.
      { rewrite separator_len_nil. simpl. rewrite len_app.
        destruct (1 <? _)%Z; lia. }
      intros Hpop s Hs Hlen.
      destruct s as [|x s]; [simpl in Hlen; lia|].
      apply suffix_cons_inv in Hs as [[= -> ->]|Hs]; [|by eapply IH].
      intros Hfits%(keep_popping_fits d _ (first :: current_doc)).
      congruence.
    + intros [= <- _] s Hs%suffix_length. lia.
Qed.

Lemma starts_grow (prev : option (list str)) (n : nat) (cd : list str)
    (d : str) (c c' : option str) :
  starts self prev (mkWindow n cd c) →
  starts self prev (mkWindow n (cd ++ [d]) c').
Proof.
  destruct prev as [prev|]; [|done]. simpl.
  unfold keeps_longest, kept, fresh. simpl. intros (d0 & Hd0 & ?).
  assert (n < length cd) as Hlt.
  { destruct (decide (n < length cd)); [done|].
    rewrite drop_ge in Hd0 by lia. done. }
  rewrite take_app_le, drop_app_le by lia.
  exists d0. split; [|done]. destruct (drop n cd); [done|]. done.
Qed.

Lemma run_from_last (prev : option (list str)) (ws : list window)
    (w w' : window) :
  (∀ q, starts self q w → starts self q w') →
  run_from self prev (ws ++ [w]) → run_from self prev (ws ++ [w']).
Proof.
  intros Hw. revert prev. induction ws as [|v ws IH]; intros prev; simpl.
  - intros [? _]. auto.
  - intros [? ?]. auto.
Qed.

Lemma run_from_snoc (prev : option (list str)) (ws : list window)
    (v w : window) :
  run_from self prev (ws ++ [v]) → starts self (Some (pieces v)) w →
  run_from self prev ((ws ++ [v]) ++ [w]).
Proof.
  revert prev. induction ws as [|u ws IH]; intros prev; simpl.
  - intros [? _] ?. auto.
  - intros [? ?] ?. auto.
Qed.

(** The invariant of the loop of [_merge_splits] for the runs: the windows
    recorded so far, with the window in the making, are a run. *)
Lemma merge_loop_windows_run (splits : list str) :
  ∀ (wins : list window) (current_doc : list str) (n : nat) ws,
    (∀ c, run_from self None (wins ++ [mkWindow n current_doc c])) →
    merge_loop_windows self [] splits wins current_doc
      (len (concat current_doc)) n = Some ws →
    run_from self None ws.
Proof using overlap_nonneg.
  induction splits as [|d splits IH]; intros wins cd n ws Hrun.
  - cbn [merge_loop_windows]. intros [= <-]. apply Hrun.
  - cbn [merge_loop_windows]. rewrite separator_len_nil.
    assert ((if (0 <? len cd)%Z then 0 else 0) = 0)%Z as ->
      by (by destruct (0 <? len cd)%Z).
    assert (∀ rest : list str,
              (len (concat rest)
               + (len d + (if (1 <? len (rest ++ [d]))%Z then 0 else 0))
               = len (concat (rest ++ [d])))%Z) as Htotal.
    { intros rest. rewrite concat_app. simpl. rewrite app_nil_r, !len_app.
      destruct (1 <? _)%Z; lia. }
    assert (merge_loop_windows self [] splits wins (cd ++ [d])
              (len (concat cd)
               + (len d + (if (1 <? len (cd ++ [d]))%Z then 0 else 0)))%Z
              n = Some ws →
            run_from self None ws) as Happend.
    { rewrite Htotal. apply IH. intros c.
      apply (run_from_last None wins (mkWindow n cd c)); [|done].
      intros q. apply starts_grow. }
    destruct (_chunk_size self <? len (concat cd) + len d + 0)%Z eqn:Hbig;
      [destruct (0 <? len cd)%Z eqn:Hcd|]; cbn [mbind option_bind];
      [|done|done].
    destruct (pop_front_spec self overlap_nonneg (len d) cd)
      as (rest & Hpop & Hrest & Hstop).
    rewrite Hpop. cbn [mbind option_bind]. rewrite Htotal. apply IH.
    intros c. apply run_from_snoc; [done|]. simpl.
    exists d. unfold kept, fresh. simpl.
    rewrite take_app_length, drop_app_length. split_and!.
    + done.
    + lia.
    + done.
    + by apply (keep_popping_fits d rest rest).
    + by apply (pop_front_longest d cd rest _ Hpop).
Qed.

(** One call of [_merge_splits] gives one run. *)
Lemma merge_windows_run (splits : list str) (ws : list window) :
  splits ≠ [] →
  Forall (λ d, len d < _chunk_size self)%Z splits →
  merge_windows self [] splits = Some ws →
  merged_run self ws.
Proof using overlap_nonneg.
  intros Hne Hsplits Hws.
  destruct (merge_loop_windows_spec self overlap_nonneg splits [] [] 0)
    as (ws' & Hws' & _ & _ & _ & Hfr); simpl; try done.
  { eapply Forall_impl; [exact Hsplits|]. simpl. lia. }
  { change (len []) with 0%Z. destruct splits as [|d splits]; [done|].
    apply Forall_cons in Hsplits as [Hd _]. pose proof (len_nonneg d). lia. }
  unfold merge_windows in Hws.
  assert (Some ws' = Some ws) as [= ->]
    by (rewrite <- Hws', <- Hws; reflexivity).
  simpl in Hfr.
  split_and!.
  - by apply (merge_loop_windows_run splits [] [] 0).
  - by rewrite Hfr.
  - by rewrite Hfr.
Qed.

Lemma in_runs_nil : in_runs self [].
Proof. by exists []. Qed.

Lemma in_runs_app (ws1 ws2 : list window) :
  in_runs self ws1 → in_runs self ws2 → in_runs self (ws1 ++ ws2).
Proof.
  intros (runs1 & -> & H1) (runs2 & -> & H2). exists (runs1 ++ runs2).
  split; [by rewrite concat_app|by apply Forall_app].
Qed.

Lemma merge_good_windows_runs (final_chunks : list window)
    (good : list str) (ws : list window) :
  in_runs self final_chunks →
  Forall (λ d, len d < _chunk_size self)%Z good →
  merge_good_windows self final_chunks good = Some ws →
  in_runs self ws.
Proof using overlap_nonneg.
  intros Hfc Hgood. destruct good as [|d good]; [by intros [= <-]|].
  unfold merge_good_windows.
  destruct (merge_windows self [] (d :: good)) as [merged|] eqn:Hmerged;
    [|done].
  intros [= <-]. apply in_runs_app; [done|]. exists [merged].
  split; [simpl; by rewrite app_nil_r|]. apply Forall_singleton.
  by apply (merge_windows_run (d :: good)).
Qed.

Lemma split_loop_windows_runs
    (deeper : option (str → option (list window))) (splits : list str) :
  ∀ (final_chunks : list window) (good : list str) (ws : list window),
    match deeper with
    | None => Forall (λ s, len s < _chunk_size self)%Z splits
    | Some _split_text => ∀ s ws, _split_text s = Some ws → in_runs self ws
    end →
    in_runs self final_chunks →
    Forall (λ d, len d < _chunk_size self)%Z good →
    split_loop_windows self deeper splits final_chunks good = Some ws →
    in_runs self ws.
Proof using overlap_nonneg.
  induction splits as [|s splits IH]; intros fc good ws Hdeep Hfc Hgood.
  - cbn [split_loop_windows]. by apply merge_good_windows_runs.
  - cbn [split_loop_windows].
    assert (match deeper with
            | None => Forall (λ s, len s < _chunk_size self)%Z splits
            | Some _split_text =>
                ∀ s ws, _split_text s = Some ws → in_runs self ws
            end) as Hdeep'.
    { destruct deeper; [done|]. by eapply Forall_cons_1. }
    destruct (len s <? _chunk_size self)%Z eqn:Hs.
    + apply IH; [done|done|]. apply Forall_app. split; [done|].
      apply Forall_singleton. lia.
    + destruct (merge_good_windows self fc good) as [fc'|] eqn:Hfc'; [|done].
      cbn [mbind option_bind].
      apply merge_good_windows_runs in Hfc'; [|done|done].
      destruct deeper as [g|].
      * destruct (g s) as [other|] eqn:Hother; [|done].
        cbn [mbind option_bind].
        apply IH; [done| |done]. apply in_runs_app; [done|]. by eapply Hdeep.
      * apply Forall_cons_1 in Hdeep as [Hlt _]. lia.
Qed.

Hypothesis size_large : (1 < _chunk_size self)%Z.

Lemma _split_text_windows_runs (separators : list str) :
  [] ∈ separators →
  ∀ text ws, _split_text_windows self separators text = Some ws →
             in_runs self ws.
Proof using overlap_nonneg size_large.
  induction separators as [|_s rest IH]; intros Hin text ws.
  - by apply elem_of_nil in Hin.
  - cbn [_split_text_windows]. destruct _s as [|a _s].
    + apply split_loop_windows_runs; [|apply in_runs_nil|done].
      eapply Forall_impl; [apply len_split_chars|]. simpl. lia.
    + apply elem_of_cons in Hin as [Hin|Hin]; [done|].
      destruct rest as [|r rest]; [by apply elem_of_nil in Hin|].
      destruct (contains text (a :: _s)).
      * apply split_loop_windows_runs; [|apply in_runs_nil|done].
        intros s. by apply IH.
      * by apply IH.
Qed.
End run_facts.

(** ** The indexer *)

(** The splitter of the script is total on every text, and its windows are
    well chunked and spell the text. *)
Lemma splitter_windows (text : str) :
  ∃ ws, split_text_windows splitter text = Some ws
        ∧ well_chunked splitter ws ∧ covered ws = text.
Proof.
  apply _split_text_windows_spec; simpl; [lia|lia|].
  rewrite !elem_of_cons. auto.
Qed.

Lemma split_text_bound (text : str) :
  ∃ cs, split_text splitter text = Some cs
        ∧ Forall (λ c, length c ≤ 500) cs.
Proof.
  destruct (splitter_windows text) as (ws & Hws & (_ & Hin & _) & _).
  exists (chunks_of ws). rewrite split_text_erase, Hws. split; [done|].
  apply within_chunks_of in Hin. eapply Forall_impl; [exact Hin|].
  intros c. unfold len. simpl. lia.
Qed.

(** C3: the indexer splits every markdown document it loads, and every
    chunk it hands to the embedding step is at most 500 characters long. *)
Theorem chunks_within_size (listing : list (str * str)) :
  ∃ cs, chunks listing = Some cs
        ∧ Forall (λ d, length (page_content d) ≤ 500) cs.
Proof.
  unfold chunks. induction (load_docs listing) as [|doc docs IH].
  - by exists [].
  - destruct IH as (more & Hmore & Hbound).
    destruct (split_text_bound (page_content doc)) as (cs & Hcs & Hcsb).
    cbn [split_documents]. rewrite Hcs, Hmore. eexists. split; [done|].
    apply Forall_app. split; [|done].
    apply Forall_fmap. eapply Forall_impl; [exact Hcsb|]. done.
Qed.

Lemma three_paragraphs_chunks :
  split_text splitter three_paragraphs
  = Some [replicate 300 97%N; replicate 300 98%N; replicate 300 99%N].
Proof. vm_compute. reflexivity. Qed.

(** C4, as stated, fails: the chunks of three paragraphs of 300 characters
    are the three paragraphs, and the first two share no character. *)
Lemma exact_overlap_counterexample : ¬ exact_overlap 100 three_paragraphs.
Proof.
  intros Hclaim.
  destruct (Hclaim _ 0 _ _ three_paragraphs_chunks eq_refl eq_refl)
    as (_ & _ & Heq); [simpl; lia|].
  vm_compute in Heq. discriminate Heq.
Qed.

Lemma run_from_lookup (self : TextSplitter) (run : list window) :
  ∀ prev i w1 w2,
    run_from self prev run → run !! i = Some w1 → run !! S i = Some w2 →
    keeps_longest self (pieces w1) w2.
Proof.
  induction run as [|v run IH]; intros prev i w1 w2 Hrun H1 H2; [done|].
  destruct Hrun as [_ Hrun]. destruct i as [|i].
  - injection H1 as <-. destruct run as [|u run]; [done|].
    injection H2 as <-. by destruct Hrun.
  - by eapply IH.
Qed.

Lemma chained_new_piece (overlap : Z) (ws : list window) :
  ∀ prev, chained overlap prev ws →
          Forall (λ w, kept_pieces w < length (pieces w)) ws.
Proof.
  induction ws as [|w ws IH]; intros prev; [by constructor|].
  intros [(? & _) ?]. constructor; [done|]. by eapply IH.
Qed.

(** C4, amended.  The splitter cuts a text into consecutive pieces and
    puts them in windows, in runs, a run being the windows of one call of
    [_merge_splits] on pieces shorter than 500 characters; the chunks are
    the windows in order, each joined and stripped, a window that is blank
    giving no chunk; the new pieces of the windows, in order, spell the
    text.  The first window of a run repeats nothing.  Every other window
    of a run starts with pieces from the end of the window before it: the
    longest run of them that has at most 100 characters and, with the
    first new piece of the window, at most 500; that new piece would have
    taken the window before it over 500 characters.  So any two windows in
    a row share at most 100 characters, and every window has a new
    piece. *)
Theorem chunk_overlap_longest_fit (text : str) :
  ∃ runs,
    split_text_windows splitter text = Some (concat runs)
    ∧ split_text splitter text = Some (chunks_of (concat runs))
    ∧ Forall joined (concat runs)
    ∧ covered (concat runs) = text
    ∧ Forall
        (λ run,
           merge_windows splitter [] (flat_map fresh run) = Some run
           ∧ Forall (λ d, len d < 500)%Z (flat_map fresh run)
           ∧ (∀ w, head run = Some w → kept_pieces w = 0)
           ∧ ∀ i w1 w2,
               run !! i = Some w1 → run !! S i = Some w2 →
               keeps_longest splitter (pieces w1) w2)
        runs
    ∧ (∀ i w1 w2,
        concat runs !! i = Some w1 → concat runs !! S i = Some w2 →
        kept w2 `suffix_of` pieces w1
        ∧ (len (concat (kept w2)) ≤ 100)%Z)
    ∧ Forall (λ w, kept_pieces w < length (pieces w)) (concat runs).
Proof.
  destruct (splitter_windows text) as (ws & Hws & (Hch & _ & Hjo) & Hcov).
  assert (0 ≤ _chunk_overlap splitter)%Z as Hoverlap by (simpl; lia).
  assert (1 < _chunk_size splitter)%Z as Hsize by (simpl; lia).
  destruct (_split_text_windows_runs splitter Hoverlap Hsize
              (_separators splitter)
              ltac:(simpl; rewrite !elem_of_cons; auto) text ws Hws)
    as (runs & -> & Hruns).
  exists runs. rewrite split_text_erase, Hws. split_and!; try done.
  - eapply Forall_impl; [exact Hruns|]. intros run (Hrun & Hlen & Hmerge).
    split_and!; [done|done| |].
    + intros w Hw. destruct run as [|v run]; [done|].
      injection Hw as <-. by destruct Hrun.
    + intros i w1 w2. by apply (run_from_lookup splitter run None).
  - intros i w1 w2 H1 H2.
    destruct (chained_lookup _ _ _ _ _ _ Hch H1 H2) as (? & ? & ?). done.
  - by eapply chained_new_piece.
Qed.

(** A word of 900 letters: the pieces are the letters, and the second
    window repeats the last 100 letters of the first. *)
Example letters_overlap :
  option_map
    (map (λ w, (kept_pieces w, length (pieces w), length (concat (kept w)))))
    (split_text_windows splitter (replicate 900 97%N))
  = Some [(0, 500, 0); (100, 500, 100)].
Proof. vm_compute. reflexivity. Qed.

(** A window of whitespace gives no chunk: of the three windows of this
    text, the one in the middle is blank, and the chunks are the first and
    the last window, joined and stripped. *)
Example blank_window :
  option_map (map (λ w, (kept_pieces w, length (pieces w), chunk w)))
    (split_text_windows splitter
       (lit "a" ++ replicate 499 32%N
        ++ concat (replicate 250 [32%N; 9%N]) ++ lit " b"))
  = Some [(0, 500, Some (lit "a")); (100, 300, None);
          (50, 101, Some (lit "b"))].
Proof. vm_compute. reflexivity. Qed.

(** ** The parse tree: search and edits *)

(** Induction on a tree, with the property for all the children of a
    tag. *)
Lemma node_induction (P : node → Prop) :
  (∀ k s, P (NavigableString k s)) →
  (∀ name attrs contents,
     Forall P contents → P (Tag name attrs contents)) →
  ∀ n, P n.
Proof.
  intros Hstring Htag. fix IH 1. intros [k s|name attrs contents].
  - apply Hstring.
  - apply Htag. induction contents as [|x contents IHc]; constructor.
    + apply IH.
    + exact IHc.
Qed.

Lemma first_in_Some (f : node → option path) (l : list node) (k : nat)
    (p : path) :
  first_in f l k = Some p ↔
  ∃ i x p', p = (k + i) :: p' ∧ l !! i = Some x ∧ f x = Some p'
            ∧ ∀ j y, j < i → l !! j = Some y → f y = None.
Proof.
  revert k. induction l as [|x l IH]; intros k; simpl.
  - split; [done|]. by intros (i & y & p' & _ & ? & _).
  - destruct (f x) as [p0|] eqn:Hx.
    + split.
      * intros [= <-]. exists 0, x, p0. rewrite Nat.add_0_r.
        split_and!; try done. lia.
      * intros (i & y & p' & -> & Hi & Hy & Hbefore).
        destruct i as [|i].
        -- simpl in Hi. injection Hi as <-. rewrite Nat.add_0_r. congruence.
        -- specialize (Hbefore 0 x ltac:(lia) eq_refl). congruence.
    + rewrite IH. split.
      * intros (i & y & p' & -> & Hi & Hy & Hbefore).
        exists (S i), y, p'. split_and!; [f_equal; lia|done|done|].
        intros [|j] z Hj Hz; simpl in Hz; [congruence|].
        apply (Hbefore j); [lia|done].
      * intros (i & y & p' & -> & Hi & Hy & Hbefore).
        destruct i as [|i]; simpl in Hi; [congruence|].
        exists i, y, p'. split_and!; [f_equal; lia|done|done|].
        intros j z Hj Hz. apply (Hbefore (S j)); [lia|done].
Qed.

Lemma first_in_None (f : node → option path) (l : list node) (k : nat) :
  first_in f l k = None ↔ Forall (λ x, f x = None) l.
Proof.
  revert k. induction l as [|x l IH]; intros k; simpl.
  - split; [by constructor|done].
  - destruct (f x) eqn:Hx.
    + split; [done|]. intros [H _]%Forall_cons. congruence.
    + rewrite IH. split; [by constructor|]. by intros [_ H]%Forall_cons.
Qed.

Lemma named_shallow (name : str) : shallow (named name).
Proof. done. Qed.

Lemma named_with_id_shallow (name value : str) :
  shallow (named_with_id name value).
Proof. done. Qed.

Lemma find_from_root (q : node → bool) (soup : node) :
  q soup = false → find q soup = find_from q soup.
Proof. intros Hq. unfold find. destruct soup; simpl; by rewrite Hq. Qed.

(** What [find] returns is the place of an element that matches. *)
Lemma find_from_lookup (q : node → bool) (n : node) :
  ∀ p, find_from q n = Some p →
       ∃ x, lookup_path p n = Some x ∧ q x = true.
Proof.
  induction n as [k s|name attrs contents IH] using node_induction;
    intros p; simpl.
  - destruct (q _) eqn:Hq; [|done]. intros [= <-]. eauto.
  - destruct (q _) eqn:Hq.
    + intros [= <-]. eauto.
    + intros (i & x & p' & -> & Hi & Hx & _)%first_in_Some. simpl.
      rewrite Hi. simpl.
      by apply (Forall_lookup_1 _ _ _ _ IH Hi).
Qed.

(** [find] returns nothing exactly when nothing matches. *)
Lemma find_from_None (q : node → bool) (n : node) :
  find_from q n = None ↔ ∀ p x, lookup_path p n = Some x → q x = false.
Proof.
  induction n as [k s|name attrs contents IH] using node_induction; simpl.
  - destruct (q _) eqn:Hq.
    + split; [done|]. intros H. specialize (H [] _ eq_refl). congruence.
    + split; [|done]. intros _ [|i p] x; simpl; [|done]. by intros [= <-].
  - destruct (q _) eqn:Hq.
    + split; [done|]. intros H. specialize (H [] _ eq_refl). congruence.
    + rewrite first_in_None. split.
      * intros Hall [|i p] x; simpl; [by intros [= <-]|].
        destruct (contents !! i) as [y|] eqn:Hi; simpl; [|done].
        intros Hx.
        pose proof (Forall_lookup_1 _ _ _ _ IH Hi) as IHy.
        pose proof (Forall_lookup_1 _ _ _ _ Hall Hi) as Hy.
        by apply (proj1 IHy Hy p).
      * intros Hall. apply Forall_lookup. intros i y Hi.
        apply (Forall_lookup_1 _ _ _ _ IH Hi).
        intros p x Hx. apply (Hall (i :: p)). simpl. by rewrite Hi.
Qed.

Lemma find_from_alter_contents (q : node → bool)
    (f : list node → list node) :
  shallow q →
  ∀ p n, find_from q n = Some p →
         find_from q (alter_contents f p n) = Some p.
Proof.
  intros Hq. induction p as [|i p IH]; intros [k s|name attrs c].
  - done.
  - simpl. destruct (q (Tag name attrs c)) eqn:Hn.
    + by rewrite (Hq _ _ _ c), Hn.
    + by intros (j & x & p' & [=] & _)%first_in_Some.
  - simpl. by destruct (q (NavigableString k s)).
  - simpl. destruct (q (Tag name attrs c)) eqn:Hn; [done|].
    rewrite (Hq _ _ _ c), Hn.
    intros (j & x & p' & [= -> ->] & Hj & Hx & Hbefore)%first_in_Some.
    apply first_in_Some. exists j, (alter_contents f p' x), p'.
    split_and!; [done| |by apply IH|].
    + by rewrite list_lookup_alter_eq, Hj.
    + intros j' y Hlt. rewrite list_lookup_alter_ne by lia.
      by apply Hbefore.
Qed.

Lemma lookup_alter_contents (f : list node → list node) :
  ∀ p n name attrs c,
    lookup_path p n = Some (Tag name attrs c) →
    lookup_path p (alter_contents f p n) = Some (Tag name attrs (f c)).
Proof.
  induction p as [|i p IH]; intros [k s|nm a cs] name attrs c; try done.
  - simpl. by intros [= -> -> ->].
  - simpl. rewrite list_lookup_alter_eq.
    destruct (cs !! i) as [x|]; simpl; [|done]. apply IH.
Qed.

Lemma path_after_removal_prefix (removed p : path) :
  p `prefix_of` removed → path_after_removal removed p = p.
Proof.
  revert p. induction removed as [|i removed IH]; intros [|j p] Hpre.
  - done.
  - by apply prefix_nil_inv in Hpre.
  - by destruct removed.
  - assert (i = j) as -> by (symmetry; by eapply prefix_cons_inv_1).
    apply prefix_cons_inv_2 in Hpre. simpl.
    destruct removed as [|i' removed].
    + apply prefix_nil_inv in Hpre as ->. by rewrite Nat.ltb_irrefl.
    + rewrite Nat.eqb_refl. f_equal. by apply IH.
Qed.

(** Taking an element out does not create a match. *)
Lemma find_from_remove_None (q : node → bool) :
  shallow q →
  ∀ removed n, find_from q n = None →
               find_from q (remove_at removed n) = None.
Proof.
  intros Hq. unfold remove_at.
  induction removed as [|i removed IH]; intros [k s|name attrs c]; try done.
  simpl. destruct (q (Tag name attrs c)) eqn:Hn; [done|].
  intros Hnone%first_in_None.
  destruct removed as [|i' removed].
  - cbn [find_from]. rewrite (Hq _ _ _ c), Hn. apply first_in_None.
    apply Forall_delete. done.
  - cbn [find_from]. rewrite (Hq _ _ _ c), Hn. apply first_in_None.
    apply Forall_alter; [done|]. intros x Hx Hfx. by apply IH.
Qed.

Lemma remove_at_single (i : nat) (name : str) (attrs : list (str * str))
    (c : list node) :
  remove_at [i] (Tag name attrs c) = Tag name attrs (delete i c).
Proof. done. Qed.

Lemma remove_at_deeper (i i' : nat) (removed : path) (name : str)
    (attrs : list (str * str)) (c : list node) :
  remove_at (i :: i' :: removed) (Tag name attrs c)
  = Tag name attrs (alter (remove_at (i' :: removed)) i c).
Proof. done. Qed.

(** An element found by [find] is still the one found once another
    element, that does not contain it, has left the tree. *)
Lemma find_from_remove (q : node → bool) :
  shallow q →
  ∀ removed n p,
    find_from q n = Some p → ¬ removed `prefix_of` p →
    find_from q (remove_at removed n) = Some (path_after_removal removed p).
Proof.
  intros Hq. induction removed as [|i removed IH]; intros n p Hfind Hnot.
  { destruct Hnot. apply prefix_nil. }
  destruct n as [k s|name attrs c].
  { simpl in *. destruct (q _); [|done]. injection Hfind as <-.
    by destruct removed. }
  cbn [find_from] in Hfind. destruct (q (Tag name attrs c)) eqn:Hn.
  { injection Hfind as <-.
    assert (path_after_removal (i :: removed) [] = []) as ->
      by (by destruct removed).
    destruct removed; [rewrite remove_at_single|rewrite remove_at_deeper];
      cbn [find_from]; by rewrite (Hq _ _ _ c), Hn. }
  apply first_in_Some in Hfind
    as (j & x & p' & -> & Hj & Hx & Hbefore).
  change (0 + j) with j in *.
  destruct removed as [|i' removed].
  - rewrite remove_at_single. cbn [find_from path_after_removal].
    rewrite (Hq _ _ _ c), Hn.
    assert (i ≠ j) as Hij.
    { intros ->. apply Hnot. by apply prefix_cons, prefix_nil. }
    apply first_in_Some. destruct (Nat.ltb_spec i j).
    + exists (j - 1), x, p'. split_and!; [done| |done|].
      * rewrite list_lookup_delete_ge by lia.
        by replace (S (j - 1)) with j by lia.
      * intros j' y Hlt. rewrite list_lookup_delete.
        case_decide; apply Hbefore; lia.
    + exists j, x, p'. split_and!; [done| |done|].
      * rewrite list_lookup_delete_lt by lia. done.
      * intros j' y Hlt. rewrite list_lookup_delete_lt by lia.
        by apply Hbefore.
  - rewrite remove_at_deeper. cbn [find_from path_after_removal].
    rewrite (Hq _ _ _ c), Hn. apply first_in_Some.
    destruct (Nat.eqb_spec i j) as [->|Hij].
    + exists j, (remove_at (i' :: removed) x),
        (path_after_removal (i' :: removed) p').
      split_and!; [done| | |].
      * by rewrite list_lookup_alter_eq, Hj.
      * apply IH; [done|]. intros Hpre. apply Hnot. by apply prefix_cons.
      * intros j' y Hlt. rewrite list_lookup_alter_ne by lia.
        by apply Hbefore.
    + exists j, x, p'. split_and!; [done| |done|].
      * by rewrite list_lookup_alter_ne.
      * intros j' y Hlt. destruct (decide (i = j')) as [->|Hne].
        -- rewrite list_lookup_alter_eq.
           destruct (c !! j') as [y0|] eqn:Hy0; simpl; [|done].
           intros [= <-]. apply find_from_remove_None; [done|].
           by apply (Hbefore j').
        -- rewrite list_lookup_alter_ne by done. by apply Hbefore.
Qed.

Lemma lookup_remove :
  ∀ removed n p x,
    lookup_path p n = Some x →
    ¬ removed `prefix_of` p → ¬ p `prefix_of` removed →
    lookup_path (path_after_removal removed p) (remove_at removed n) = Some x.
Proof.
  induction removed as [|i removed IH]; intros n p x Hx Hnot Hnot'.
  { destruct Hnot. apply prefix_nil. }
  destruct p as [|j p']; [destruct Hnot'; apply prefix_nil|].
  destruct n as [k s|name attrs c]; [done|]. simpl in Hx.
  destruct (c !! j) as [y|] eqn:Hj; simpl in Hx; [|done].
  destruct removed as [|i' removed].
  - rewrite remove_at_single. cbn [path_after_removal].
    assert (i ≠ j) as Hij.
    { intros ->. apply Hnot. by apply prefix_cons, prefix_nil. }
    destruct (Nat.ltb_spec i j); simpl.
    + rewrite list_lookup_delete_ge by lia.
      replace (S (j - 1)) with j by lia. by rewrite Hj.
    + rewrite list_lookup_delete_lt by lia. by rewrite Hj.
  - rewrite remove_at_deeper. cbn [path_after_removal].
    destruct (Nat.eqb_spec i j) as [->|Hij]; simpl.
    + rewrite list_lookup_alter_eq, Hj. simpl. apply IH; [done| |].
      * intros Hpre. apply Hnot. by apply prefix_cons.
      * intros Hpre. apply Hnot'. by apply prefix_cons.
    + rewrite list_lookup_alter_ne by done. by rewrite Hj.
Qed.

(** ** The HTML cleaner *)

Lemma document_not_named (name : str) (contents : list node) :
  name ≠ lit "[document]" → named name (BeautifulSoup contents) = false.
Proof.
  intros Hne. unfold named, BeautifulSoup. apply bool_decide_eq_false.
  congruence.
Qed.

(** C8: in a document with no [span] element whose [id] is [See_also], the
    section-removal step changes nothing. *)
Theorem no_anchor_no_removal (soup : node) :
  (∀ p x, lookup_path p soup = Some x →
          named_with_id (lit "span") (lit "See_also") x = false) →
  remove_see_also soup = soup.
Proof.
  intros Hnone. unfold remove_see_also, see_also_span_of.
  rewrite find_from_root by apply (Hnone [] soup eq_refl).
  by rewrite (proj2 (find_from_None _ soup) Hnone).
Qed.

Lemma no_anchor_no_removal_witness : remove_see_also paris_page = paris_page.
Proof.
  apply no_anchor_no_removal. apply find_from_None. reflexivity.
Defined.

(** C10: when the main-content element is present and [soup.body] is
    [None], [clean_html_file] raises [AttributeError] and writes nothing;
    when the main-content element is absent, lines 12 and 13 do not run and
    the step returns the document as it is. *)
Theorem missing_body_raises (input_path output_path : str) (w : world)
    (soup : node) :
  files w !! input_path = Some (Html soup) →
  (is_Some (content_root_of soup) → body_of soup = None →
   clean_html_file input_path output_path w = (Raise AttributeError, w))
  ∧ (content_root_of soup = None → retain_main_content soup = Return soup).
Proof.
  intros Hfile. split.
  - intros [content_root Hroot] Hbody.
    unfold clean_html_file, bind, read_html, lift. rewrite Hfile.
    unfold clean_soup, retain_main_content. by rewrite Hroot, Hbody.
  - intros Hroot. unfold retain_main_content. by rewrite Hroot.
Qed.

Lemma missing_body_raises_witness :
  clean_html_file (path_join input_dir (lit "a.html"))
    (path_join temp_dir (lit "a.html")) two_files
  = (Raise AttributeError, two_files).
Proof.
  apply (missing_body_raises _ _ two_files paris_fragment).
  - vm_compute. reflexivity.
  - by exists [0].
  - reflexivity.
Defined.

Lemma shallow_alter_contents (q : node → bool) (f : list node → list node)
    (p : path) (n : node) :
  shallow q → q (alter_contents f p n) = q n.
Proof. intros Hq. destruct n, p; simpl; try done; apply Hq. Qed.

Lemma shallow_remove_at (q : node → bool) (p : path) (n : node) :
  shallow q → q (remove_at p n) = q n.
Proof.
  intros Hq. destruct n as [|name attrs c]; [by destruct p|].
  destruct p as [|i [|i' p]]; simpl; try done; apply Hq.
Qed.

(** [soup.body] is the same element before and after [soup.body.clear()]. *)
Lemma body_of_clear (contents : list node) (body : path) :
  body_of (BeautifulSoup contents) = Some body →
  body_of (clear body (BeautifulSoup contents)) = Some body.
Proof.
  unfold body_of, clear. intros Hbody.
  rewrite find_from_root in Hbody by (by apply document_not_named).
  rewrite find_from_root.
  - by apply find_from_alter_contents; [apply named_shallow|].
  - rewrite shallow_alter_contents by apply named_shallow.
    by apply document_not_named.
Qed.

(** C7, as stated, does not hold of the code: the main-content element of
    [paris_fragment] exists, and lines 10 to 13 raise instead of giving a
    document. *)
Lemma body_is_main_content_counterexample :
  ¬ body_is_main_content paris_fragment.
Proof.
  intros Hclaim.
  destruct (Hclaim [0] paris eq_refl eq_refl) as (soup' & ? & ? & ? & Hret & _).
  vm_compute in Hret. discriminate Hret.
Qed.

(** C7, on the code: what lines 10 to 13 do with a document, by cases.
    - The main-content element exists and [soup.body], the first [body]
      element of the document, is [None]: line 12 raises [AttributeError],
      and there is no cleaned document.
    - The main-content element exists, [soup.body] exists and is not inside
      it: afterwards [soup.body] is the same [body] tag and its only child
      is the main-content element as it was.
    - The main-content element exists and [soup.body] is inside it (or is
      it): the step does not end, or it ends with the main-content element
      taken out of the document.
    - The main-content element is absent: the document is unchanged. *)
Theorem main_content_only (contents : list node) :
  (is_Some (content_root_of (BeautifulSoup contents)) →
   body_of (BeautifulSoup contents) = None →
   retain_main_content (BeautifulSoup contents) = Raise AttributeError)
  ∧ (∀ (content_root body : path) (c : node),
       content_root_of (BeautifulSoup contents) = Some content_root →
       lookup_path content_root (BeautifulSoup contents) = Some c →
       body_of (BeautifulSoup contents) = Some body →
       ¬ content_root `prefix_of` body →
       ∃ soup' body' attrs,
         retain_main_content (BeautifulSoup contents) = Return soup'
         ∧ body_of soup' = Some body'
         ∧ lookup_path body' soup' = Some (Tag (lit "body") attrs [c]))
  ∧ (∀ (content_root body : path) (c : node),
       content_root_of (BeautifulSoup contents) = Some content_root →
       lookup_path content_root (BeautifulSoup contents) = Some c →
       body_of (BeautifulSoup contents) = Some body →
       content_root `prefix_of` body →
       retain_main_content (BeautifulSoup contents) = Hang
       ∨ retain_main_content (BeautifulSoup contents)
         = Return (remove_at content_root
                     (clear body (BeautifulSoup contents))))
  ∧ (content_root_of (BeautifulSoup contents) = None →
     retain_main_content (BeautifulSoup contents)
     = Return (BeautifulSoup contents)).
Proof.
  split_and!; [intros [content_root Hroot] Hbody|intros content_root body c|
               intros content_root body c Hroot Hc Hbody Hin|intros Hroot];
    [unfold retain_main_content; by rewrite Hroot, Hbody| |
     |unfold retain_main_content; by rewrite Hroot]; cycle 1.
  { unfold retain_main_content, append. rewrite Hroot, Hbody, Hc.
    rewrite bool_decide_eq_true_2 by done.
    destruct (existsb _ _); auto. }
  set (soup := BeautifulSoup contents).
  set (q := named (lit "body")).
  intros Hroot Hc Hbody Hnot.
  assert (q soup = false) as Hdoc by (by apply document_not_named).
  assert (shallow q) as Hq by apply named_shallow.
  unfold retain_main_content. rewrite Hroot, Hbody, Hc.
  unfold body_of in *. fold q in Hbody |- *.
  rewrite find_from_root in Hbody by done.
  destruct (find_from_lookup _ _ _ Hbody) as (b & Hb & Hqb).
  destruct b as [|name attrs cs]; [done|].
  apply bool_decide_eq_true in Hqb as ->.
  pose proof (find_from_alter_contents q (λ _, []) Hq _ _ Hbody) as Hbody1.
  pose proof (lookup_alter_contents (λ _, []) _ _ _ _ _ Hb) as Hb1.
  fold (clear body soup) in Hbody1, Hb1.
  unfold append. rewrite (bool_decide_eq_false_2 _ Hnot).
  cbn iota.
  destruct (bool_decide (body `prefix_of` content_root)) eqn:Hpre.
  - apply bool_decide_eq_true in Hpre.
    rewrite path_after_removal_prefix by done.
    eexists _, body, attrs. split_and!; [done| |].
    + rewrite find_from_root.
      * by apply find_from_alter_contents.
      * unfold clear. by rewrite !shallow_alter_contents.
    + by apply (lookup_alter_contents (λ l, l ++ [c])) in Hb1.
  - apply bool_decide_eq_false in Hpre.
    pose proof (find_from_remove q Hq _ _ _ Hbody1 Hnot) as Hbody2.
    pose proof (lookup_remove _ _ _ _ Hb1 Hnot Hpre) as Hb2.
    eexists _, (path_after_removal content_root body), attrs.
    split_and!; [done| |].
    + rewrite find_from_root.
      * by apply find_from_alter_contents.
      * unfold clear.
        by rewrite shallow_alter_contents, shallow_remove_at,
          shallow_alter_contents.
    + by apply (lookup_alter_contents (λ l, l ++ [c])) in Hb2.
Qed.

(** When [soup.body] is inside the main-content element, the step does not
    end, or it ends with the two elements out of the tree: in the second
    document what is left is the other [body], with the navigation box. *)
Example body_inside_main_content :
  retain_main_content body_inside = Hang
  ∧ retain_main_content body_inside_before_text
    = Return (BeautifulSoup [element "body" [] [navbox]]).
Proof. split; vm_compute; reflexivity. Qed.

(** The file with the main-content element, a navigation box and no
    [body]: line 12 raises. *)
Lemma main_content_only_witness :
  retain_main_content paris_fragment = Raise AttributeError.
Proof.
  apply (proj1 (main_content_only [paris; navbox])).
  - by exists [0].
  - reflexivity.
Defined.

(** A whole page: the body is left with the main-content element alone. *)
Example main_content_only_page :
  retain_main_content paris_page
  = Return (BeautifulSoup [element "html" [] [element "body" [] [paris]]]).
Proof. vm_compute. reflexivity. Qed.

(** *** The "See also" loop *)

Lemma index_where_None {A} (q : A → bool) (l : list A) :
  index_where q l = None → Forall (λ x, q x = false) l.
Proof.
  induction l as [|x l IH]; simpl; [done|].
  destruct (q x) eqn:Hx; [done|].
  destruct (index_where q l); [done|]. intros _. by constructor; auto.
Qed.

Lemma index_where_Some {A} (q : A → bool) (l : list A) (k : nat) :
  index_where q l = Some k →
  ∃ pre x post, l = pre ++ x :: post ∧ length pre = k
                ∧ Forall (λ y, q y = false) pre ∧ q x = true.
Proof.
  revert k. induction l as [|x l IH]; intros k; simpl; [done|].
  destruct (q x) eqn:Hx.
  - intros [= <-]. by exists [], x, l.
  - destruct (index_where q l) as [k'|]; [|done]. intros [= <-].
    destruct (IH k' eq_refl) as (pre & y & post & -> & <- & Hpre & Hy).
    exists (x :: pre), y, post. split_and!; try done. by constructor.
Qed.

Lemma after_current_strings (texts l : list node) :
  Forall (λ n, is_tag n = false) texts →
  after_current (texts ++ l)
  = ((after_current l).1, texts ++ (after_current l).2).
Proof.
  induction 1 as [|x texts Hx _ IH]; simpl.
  - by destruct (after_current l).
  - rewrite Hx, IH. done.
Qed.

Lemma starts_with_h_is_tag (n : node) :
  starts_with_h (Some n) = true → is_tag n = true.
Proof. by destruct n. Qed.

Lemma drop_after_current (before rest : list node) (current : node) :
  drop (S (length before)) (before ++ current :: rest) = rest.
Proof. induction before as [|b before IH]; simpl; done. Qed.

Lemma delete_current (before rest : list node) (current : node) :
  delete (length before) (before ++ current :: rest) = before ++ rest.
Proof. induction before as [|b before IH]; simpl; [done|]. by rewrite IH. Qed.

(** The loop ends within one pass per sibling, with the outcome that
    [after_current] tells. *)
Lemma while_current_spec (fuel : nat) :
  ∀ (rest before : list node) (current : node) (heading : option nat),
    length rest < fuel →
    while_current fuel (before ++ current :: rest) (length before) heading
    = Some (if (after_current rest).1
            then (before ++ current :: (after_current rest).2, heading)
            else (before ++ (after_current rest).2, None)).
Proof.
  induction fuel as [|fuel IH]; intros rest before current heading Hfuel;
    [lia|].
  cbn [while_current]. unfold find_next_sibling.
  rewrite drop_after_current.
  pose proof (delete_current before rest current) as Hdelete.
  destruct (index_where is_tag rest) as [k|] eqn:Hnext; simpl.
  - apply index_where_Some in Hnext
      as (texts & x & post & -> & <- & Htexts & Hx).
    assert ((before ++ current :: texts ++ x :: post)
              !! S (length before + length texts) = Some x) as ->.
    { rewrite (lookup_app_r before) by lia.
      replace (S (length before + length texts) - length before)
        with (S (length texts)) by lia.
      simpl. by rewrite list_lookup_middle. }
    rewrite after_current_strings by done. simpl. rewrite Hx.
    destruct (starts_with_h (Some x)) eqn:Hh; [done|].
    rewrite Hdelete, Nat.sub_0_r.
    replace (length before + length texts) with (length (before ++ texts))
      by (by rewrite length_app).
    rewrite (app_assoc before texts (x :: post)).
    rewrite IH by (rewrite length_app in Hfuel; simpl in Hfuel; lia).
    destruct (after_current post) as [stays out]. simpl.
    destruct stays; by rewrite <- !app_assoc.
  - apply index_where_None in Hnext.
    pose proof (after_current_strings rest [] Hnext) as Hrest.
    rewrite app_nil_r in Hrest. rewrite Hrest. simpl.
    by rewrite Hdelete, app_nil_r.
Qed.

(** Lines 36 to 43, in closed form: the heading leaves, and the siblings
    after it become what [after_current] tells. *)
Lemma remove_section_spec (before rest : list node) (heading : node) :
  remove_section (before ++ heading :: rest) (length before)
  = before ++ (after_current rest).2.
Proof.
  unfold remove_section. rewrite while_current_spec.
  - destruct (after_current rest) as [[|] out]; simpl; [|done].
    apply delete_current.
  - rewrite length_app. simpl. lia.
Qed.

Lemma after_current_until_heading (middle texts after : list node)
    (e next : node) :
  Forall (λ n, starts_with_h (Some n) = false) middle →
  is_tag e = true → starts_with_h (Some e) = false →
  Forall (λ n, is_tag n = false) texts →
  starts_with_h (Some next) = true →
  after_current (middle ++ e :: texts ++ next :: after)
  = (false,
     filter (λ n, is_tag n = false) middle ++ e :: texts ++ next :: after).
Proof.
  intros Hmiddle He Heh Htexts Hnext.
  assert (after_current (e :: texts ++ next :: after)
          = (false, e :: texts ++ next :: after)) as Hlast.
  { cbn [after_current]. rewrite He, Heh, after_current_strings by done.
    cbn [after_current]. by rewrite (starts_with_h_is_tag _ Hnext), Hnext. }
  induction Hmiddle as [|x middle Hx _ IH]; [done|].
  cbn [app after_current]. rewrite Hx, IH, filter_cons.
  destruct (is_tag x) eqn:Htag.
  - by rewrite decide_False by done.
  - by rewrite decide_True by done.
Qed.

Lemma after_current_to_the_end (rest : list node) :
  Forall (λ n, starts_with_h (Some n) = false) rest →
  after_current rest = (false, filter (λ n, is_tag n = false) rest).
Proof.
  induction 1 as [|x rest Hx _ IH]; [done|].
  cbn [after_current]. rewrite Hx, IH, filter_cons.
  destruct (is_tag x) eqn:Htag.
  - by rewrite decide_False by done.
  - by rewrite decide_True by done.
Qed.

(** C1, on the code: when the heading is followed by the siblings [middle],
    an element [e], strings, and then an element whose name starts with
    ["h"], lines 36 to 43 take out the heading and the elements of
    [middle], and leave in place the strings of [middle] and the element
    [e], the last element of the section. *)
Theorem see_also_keeps_last_element
    (before middle texts after : list node) (heading e next : node) :
  Forall (λ n, starts_with_h (Some n) = false) middle →
  is_tag e = true → starts_with_h (Some e) = false →
  Forall (λ n, is_tag n = false) texts →
  starts_with_h (Some next) = true →
  remove_section (before ++ heading :: middle ++ e :: texts ++ next :: after)
    (length before)
  = before ++ filter (λ n, is_tag n = false) middle
    ++ e :: texts ++ next :: after.
Proof.
  intros. rewrite remove_section_spec.
  by rewrite after_current_until_heading.
Qed.

Lemma see_also_keeps_last_element_witness :
  remove_section
    [element "p" [] [text "Rome is the capital of Italy."];
     see_also_heading; see_also_list; references_heading;
     element "p" [] [text "Livy, History of Rome."]] 1
  = [element "p" [] [text "Rome is the capital of Italy."];
     see_also_list; references_heading;
     element "p" [] [text "Livy, History of Rome."]].
Proof.
  apply (see_also_keeps_last_element
           [element "p" [] [text "Rome is the capital of Italy."]] [] []
           [element "p" [] [text "Livy, History of Rome."]]
           see_also_heading see_also_list references_heading);
    first [by constructor | reflexivity].
Defined.

(** The whole step and the whole cleaning on [see_also_page]: the list of
    the "See also" section is still in the document. *)
Example see_also_page_cleaned :
  remove_see_also see_also_page
  = BeautifulSoup
      [element "html" []
         [element "body" []
            [element "div" [attr "id" "mw-content-text"]
               [element "p" [] [text "Rome is the capital of Italy."];
                see_also_list;
                references_heading;
                element "p" [] [text "Livy, History of Rome."]]]]]
  ∧ clean_soup see_also_page = Return (remove_see_also see_also_page).
Proof. split; vm_compute; reflexivity. Qed.

(** On the siblings of [see_also_page] the code and the words of the
    specification part: the specification takes the list out. *)
Example see_also_not_as_specified :
  section_removed
    [element "p" [] [text "Rome is the capital of Italy."];
     see_also_heading; see_also_list; references_heading;
     element "p" [] [text "Livy, History of Rome."]] 1
  = [element "p" [] [text "Rome is the capital of Italy."];
     references_heading;
     element "p" [] [text "Livy, History of Rome."]]
  ∧ remove_section
      [element "p" [] [text "Rome is the capital of Italy."];
       see_also_heading; see_also_list; references_heading;
       element "p" [] [text "Livy, History of Rome."]] 1
    ≠ section_removed
        [element "p" [] [text "Rome is the capital of Italy."];
         see_also_heading; see_also_list; references_heading;
         element "p" [] [text "Livy, History of Rome."]] 1.
Proof. split; [vm_compute; reflexivity|]. vm_compute. discriminate. Qed.

(** ** The main loop *)

Lemma for_each_app {A} (l1 l2 : list A) (body : A → M unit) (w : world) :
  for_each (l1 ++ l2) body w
  = match for_each l1 body w with
    | (Return _, w1) => for_each l2 body w1
    | (Raise e, w1) => (Raise e, w1)
    | (Hang, w1) => (Hang, w1)
    end.
Proof.
  revert w. induction l1 as [|x l1 IH]; intros w; [done|].
  cbn [app for_each]. unfold bind.
  destruct (body x w) as [[[]|e|] w1]; [apply IH|done|done].
Qed.

Lemma clean_html_file_stdout (input_path output_path : str) (w : world) :
  stdout (clean_html_file input_path output_path w).2 = stdout w.
Proof.
  unfold clean_html_file, bind, read_html, lift, write_html.
  destruct (files w !! input_path) as [[e|soup]|]; try done;
    by destruct (clean_soup _).
Qed.

Lemma process_stdout (partition_html : node → outcome (list str))
    (filename : str) (w : world) :
  stdout (process partition_html filename w).2 = stdout w.
Proof.
  unfold process. destruct (endswith filename (lit ".html")); [|done].
  unfold bind at 1.
  pose proof (clean_html_file_stdout (path_join input_dir filename)
                (path_join temp_dir filename) w) as Hclean.
  destruct (clean_html_file _ _ w) as [[[]|e|] w1]; [|done|done].
  simpl in Hclean. rewrite <- Hclean.
  unfold bind, read_html, lift, write_text.
  destruct (files w1 !! _) as [[e|soup]|]; try done;
    by destruct (partition_html _).
Qed.

Lemma for_each_process_stdout (partition_html : node → outcome (list str))
    (names : list str) (w : world) :
  stdout (for_each names (process partition_html) w).2 = stdout w.
Proof.
  revert w. induction names as [|name names IH]; intros w; [done|].
  cbn [for_each]. unfold bind.
  pose proof (process_stdout partition_html name w) as Hname.
  destruct (process partition_html name w) as [[[]|e|] w1]; simpl in *.
  - by rewrite IH.
  - done.
  - done.
Qed.

(** C2, as stated, fails: in [two_files] the loop body can process
    [b.html], and the run, which fails on [a.html], never cleans it. *)
Lemma every_good_file_is_cleaned_counterexample :
  ¬ every_good_file_is_cleaned (λ _, Return []) two_files.
Proof.
  intros Hclaim.
  destruct (Hclaim [lit "a.html"; lit "b.html"] (lit "b.html"))
    as [f Hf]; [reflexivity| |vm_compute; reflexivity|reflexivity|].
  - apply elem_of_cons. right. apply elem_of_cons. by left.
  - vm_compute in Hf. discriminate Hf.
Qed.

(** C2, amended: an exception raised while a file is processed ends the
    run with that exception, in the state in which it was raised: the files
    listed before it have been processed, the files listed after it are
    not processed, and nothing is printed, neither a report for the file
    nor the closing message. *)
Theorem failure_ends_the_batch
    (partition_html : node → outcome (list str)) (w w1 w2 : world)
    (before after : list str) (name : str) (e : exn) :
  raw_html w = Some (before ++ name :: after) →
  for_each before (process partition_html) w = (Return (), w1) →
  process partition_html name w1 = (Raise e, w2) →
  main partition_html w = (Raise e, w2) ∧ stdout w2 = stdout w.
Proof.
  intros Hnames Hbefore Hname. split.
  - unfold main, bind at 1 2, listdir_raw_html. rewrite Hnames.
    rewrite for_each_app, Hbefore. cbn [for_each]. unfold bind.
    by rewrite Hname.
  - pose proof (for_each_process_stdout partition_html before w) as H1.
    pose proof (process_stdout partition_html name w1) as H2.
    rewrite Hbefore in H1. rewrite Hname in H2. simpl in *. congruence.
Qed.

Lemma failure_ends_the_batch_witness :
  main (λ _, Return []) two_files = (Raise AttributeError, two_files)
  ∧ stdout two_files = stdout two_files.
Proof.
  apply (failure_ends_the_batch _ two_files two_files two_files
           [] [lit "b.html"] (lit "a.html")).
  - reflexivity.
  - reflexivity.
  - vm_compute. reflexivity.
Defined.

(** A text of 150 words of four letters: two windows, the second of which
    starts with the last 20 pieces, 100 characters, of the first. *)
Example words_overlap :
  option_map
    (map (λ w, (kept_pieces w, length (pieces w), length (concat (kept w)))))
    (split_text_windows splitter (concat (replicate 150 (lit "abcd "))))
  = Some [(0, 100, 0); (20, 71, 100)].
Proof. vm_compute. reflexivity. Qed.

(* ================================================================== *)
(** * Part III: further properties of the code *)
(* ================================================================== *)

(** ** Python strings: [strip] and [in] *)

Lemma lstrip_head (s : str) (c : N) (rest : str) :
  lstrip s = c :: rest → isspace c = false.
Proof.
  induction s as [|x s IH]; simpl; [done|].
  destruct (isspace x) eqn:Hx; [done|]. by intros [= <- _].
Qed.

Lemma strip_prefix_lstrip (s : str) : strip s `prefix_of` lstrip s.
Proof.
  unfold strip. destruct (lstrip_suffix (rev (lstrip s))) as [k Hk].
  exists (rev k). by rewrite <- rev_app_distr, <- Hk, rev_involutive.
Qed.

Lemma strip_substring (s : str) : substring_of (strip s) s.
Proof.
  destruct (strip_prefix_lstrip s) as [b Hb].
  destruct (lstrip_suffix s) as [a Ha].
  exists a, b. by rewrite <- Hb.
Qed.

Lemma strip_trimmed (s : str) : strip s ≠ [] → trimmed (strip s).
Proof.
  intros Hne. split_and!; [done| |].
  - (* the first character is the first of [lstrip s] *)
    intros x Hx. destruct (strip_prefix_lstrip s) as [b Hb].
    destruct (strip s) as [|y t] eqn:Hs; [done|]. injection Hx as ->.
    by apply (lstrip_head s x (t ++ b)).
  - (* the last character is the first of the inner [lstrip] *)
    intros x Hx. unfold strip in *.
    destruct (lstrip (rev (lstrip s))) as [|y t] eqn:Hs; [done|].
    simpl in Hx. rewrite last_snoc in Hx. injection Hx as ->.
    by apply (lstrip_head _ _ _ Hs).
Qed.

Lemma substring_of_trans (a b c : str) :
  substring_of a b → substring_of b c → substring_of a c.
Proof.
  intros (x & y & ->) (x' & y' & ->). exists (x' ++ x), (y ++ y').
  by rewrite <- !app_assoc.
Qed.

(** [p in s] holds exactly when [p] occurs in [s]. *)
Lemma contains_spec (s p : str) : contains s p = true ↔ substring_of p s.
Proof.
  induction s as [|c s IH]; cbn [contains].
  - rewrite orb_false_r. split.
    + intros Hstart%startswith_spec. exists [], (drop (length p) []).
      by rewrite <- Hstart.
    + intros (a & b & Hab). symmetry in Hab.
      apply app_eq_nil in Hab as [-> [-> ->]%app_eq_nil]. done.
  - rewrite orb_true_iff, IH. split.
    + intros [Hstart%startswith_spec|(a & b & ->)].
      * exists [], (drop (length p) (c :: s)). by rewrite <- Hstart.
      * by exists (c :: a), b.
    + intros (a & b & Hab). destruct a as [|x a].
      * left. apply startswith_spec. simpl in Hab. rewrite Hab at 1.
        f_equal. by rewrite Hab, drop_app_length.
      * right. injection Hab as _ ->. by exists a, b.
Qed.

(** ** The indexer: what a chunk is *)

Lemma pieces_kept_fresh (w : window) : pieces w = kept w ++ fresh w.
Proof. unfold kept, fresh. by rewrite take_drop. Qed.

(** In a chain of windows, the pieces of a window end the new pieces laid
    out so far. *)
Lemma chained_pieces_suffix (overlap : Z) (ws : list window) :
  ∀ (prev : list str) (i : nat) (w : window),
    chained overlap prev ws → ws !! i = Some w →
    pieces w `suffix_of` prev ++ flat_map fresh (take (S i) ws).
Proof.
  induction ws as [|v ws IH]; intros prev i w Hch Hi; [done|].
  destruct Hch as [(_ & Hkept & _) Hch].
  assert (pieces v `suffix_of` prev ++ fresh v) as Hv.
  { rewrite pieces_kept_fresh. by apply suffix_app. }
  destruct i as [|i].
  - injection Hi as <-. simpl. by rewrite app_nil_r.
  - specialize (IH _ _ _ Hch Hi). cbn [take flat_map].
    etrans; [exact IH|]. rewrite (app_assoc prev). by apply suffix_app.
Qed.

Lemma concat_suffix (l k : list str) :
  l `suffix_of` k → concat l `suffix_of` concat k.
Proof. intros [a ->]. rewrite concat_app. by apply suffix_app_r. Qed.

(** The pieces of every window of a text are consecutive in the text. *)
Lemma window_substring (overlap : Z) (ws : list window) (i : nat)
    (w : window) :
  chained overlap [] ws → ws !! i = Some w →
  substring_of (concat (pieces w)) (covered ws).
Proof.
  intros Hch Hi.
  pose proof (chained_pieces_suffix _ _ _ _ _ Hch Hi) as Hsuf.
  apply concat_suffix in Hsuf as [a Ha]. simpl in Ha.
  exists a, (concat (flat_map fresh (drop (S i) ws))).
  unfold covered. rewrite <- (take_drop (S i) ws) at 1.
  by rewrite flat_map_app, concat_app, Ha, <- app_assoc.
Qed.

Lemma chunk_of_window (ws : list window) (c : str) :
  c ∈ chunks_of ws → ∃ i w, ws !! i = Some w ∧ chunk w = Some c.
Proof.
  unfold chunks_of. intros (w & Hw & Hc)%list_elem_of_omap.
  apply list_elem_of_lookup in Hw as [i Hi]. eauto.
Qed.

Lemma split_text_chunk (text : str) (cs : list str) (c : str) :
  split_text splitter text = Some cs → c ∈ cs →
  substring_of c text ∧ trimmed c.
Proof.
  intros Hcs Hc.
  destruct (splitter_windows text) as (ws & Hws & (Hch & _ & Hjo) & Hcov).
  rewrite split_text_erase, Hws in Hcs. injection Hcs as <-.
  apply chunk_of_window in Hc as (i & w & Hi & Hchunk).
  pose proof (window_substring _ _ _ _ Hch Hi) as Hsub.
  rewrite Hcov in Hsub.
  pose proof (Forall_lookup_1 _ _ _ _ Hjo Hi) as Hw. unfold joined in Hw.
  rewrite Hchunk in Hw. unfold _join_docs in Hw. rewrite join_nil_sep in Hw.
  destruct (strip (concat (pieces w))) as [|x t] eqn:Hstrip; [done|].
  injection Hw as ->. rewrite <- Hstrip. split.
  - eapply substring_of_trans; [apply strip_substring|done].
  - apply strip_trimmed. by rewrite Hstrip.
Qed.

(** X1: every chunk of a text is a run of consecutive characters of the
    text, is not empty, and neither starts nor ends with whitespace. *)
Theorem chunk_is_trimmed_substring (text : str) (cs : list str) (c : str) :
  split_text splitter text = Some cs → c ∈ cs →
  substring_of c text ∧ trimmed c.
Proof. apply split_text_chunk. Qed.

Lemma chunk_is_trimmed_substring_witness :
  substring_of (lit "Rome.")
    (lit "  Rome." ++ nl)
  ∧ trimmed (lit "Rome.").
Proof.
  apply (chunk_is_trimmed_substring (lit "  Rome." ++ nl) [lit "Rome."]).
  - vm_compute. reflexivity.
  - apply list_elem_of_here.
Defined.

(** ** The indexer: short texts and several files *)

Lemma merge_loop_fits (self : TextSplitter) (splits : list str) :
  ∀ (docs current_doc : list str),
    (len (concat current_doc) + len (concat splits) ≤ _chunk_size self)%Z →
    merge_loop self [] splits docs current_doc (len (concat current_doc))
    = Some (append_doc docs (_join_docs (current_doc ++ splits) [])).
Proof.
  induction splits as [|d splits IH]; intros docs cd Hfit.
  - cbn [merge_loop]. by rewrite app_nil_r.
  - cbn [merge_loop]. rewrite separator_len_nil.
    simpl in Hfit. rewrite len_app in Hfit.
    pose proof (len_nonneg (concat splits)).
    assert ((if (0 <? len cd)%Z then 0 else 0) = 0)%Z as ->
      by (by destruct (0 <? len cd)%Z).
    assert ((_chunk_size self <? len (concat cd) + len d + 0)%Z = false)
      as -> by lia.
    cbn [mbind option_bind].
    assert ((if (1 <? len (cd ++ [d]))%Z then 0 else 0) = 0)%Z as ->
      by (by destruct (1 <? len (cd ++ [d]))%Z).
    assert (len (concat cd) + (len d + 0) = len (concat (cd ++ [d])))%Z as ->.
    { rewrite concat_app, len_app. simpl. rewrite app_nil_r. lia. }
    rewrite IH.
    + by rewrite <- app_assoc.
    + rewrite concat_app, len_app. simpl. rewrite app_nil_r. lia.
Qed.

Lemma split_loop_all_good (self : TextSplitter)
    (deeper : option (str → option (list str))) (splits : list str) :
  ∀ final_chunks good,
    Forall (λ s, len s < _chunk_size self)%Z splits →
    split_loop self deeper splits final_chunks good
    = merge_good self final_chunks (good ++ splits).
Proof.
  induction splits as [|s splits IH]; intros fc good Hall.
  - cbn [split_loop]. by rewrite app_nil_r.
  - apply Forall_cons in Hall as [Hs Hall]. cbn [split_loop].
    assert ((len s <? _chunk_size self)%Z = true) as -> by lia.
    rewrite IH by done. by rewrite <- app_assoc.
Qed.

Lemma len_piece_le (l : list str) (x : str) :
  x ∈ l → (len x ≤ len (concat l))%Z.
Proof.
  induction 1 as [x l|x y l _ IH]; simpl; rewrite len_app.
  - pose proof (len_nonneg (concat l)). lia.
  - pose proof (len_nonneg y). lia.
Qed.

(** A text that is shorter than a chunk is cut at the first separator that
    applies, and its pieces are merged back into one chunk. *)
Lemma _split_text_short (self : TextSplitter) (separators : list str)
    (text : str) :
  [] ∈ separators → (len text < _chunk_size self)%Z →
  _split_text self separators text
  = Some (match strip text with [] => [] | c => [c] end).
Proof.
  intros Hin Hshort.
  assert (∀ sep deeper,
            split_loop self deeper (_split_text_with_regex text sep) [] []
            = Some (match strip text with [] => [] | c => [c] end)) as Hloop.
  { intros sep deeper.
    pose proof (concat_split_text_with_regex text sep) as Hcat.
    rewrite split_loop_all_good.
    - simpl. unfold merge_good.
      destruct (_split_text_with_regex text sep) as [|d splits] eqn:Hsplits.
      + simpl in Hcat. by rewrite <- Hcat.
      + unfold _merge_splits.
        change 0%Z with (len (concat (@nil str))).
        rewrite merge_loop_fits
          by (rewrite Hcat; change (len (concat [])) with 0%Z; lia).
        cbn [mbind option_bind app]. unfold _join_docs.
        rewrite join_nil_sep, Hcat. by destruct (strip text).
    - apply Forall_forall. intros x Hx. apply len_piece_le in Hx.
      rewrite Hcat in Hx. lia. }
  induction separators as [|_s rest IH]; [by apply elem_of_nil in Hin|].
  cbn [_split_text]. destruct _s as [|a _s]; [apply Hloop|].
  apply elem_of_cons in Hin as [Hin|Hin]; [done|].
  destruct rest as [|r rest]; [by apply elem_of_nil in Hin|].
  destruct (contains text (a :: _s)); [apply Hloop|by apply IH].
Qed.

(** X2: a text of fewer than 500 characters is not cut: its only chunk is
    the text without the whitespace around it, and a blank text has no
    chunk. *)
Theorem short_text_is_one_chunk (text : str) :
  length text < 500 →
  split_text splitter text = Some (match strip text with [] => [] | c => [c] end).
Proof.
  intros Hshort. apply _split_text_short.
  - simpl. rewrite !elem_of_cons. auto.
  - unfold len. simpl. lia.
Qed.

Lemma short_text_is_one_chunk_witness :
  split_text splitter (lit "  Rome." ++ nl)
  = Some (match strip (lit "  Rome." ++ nl) with [] => [] | c => [c] end).
Proof. apply short_text_is_one_chunk. vm_compute. lia. Defined.

Lemma split_documents_app (self : TextSplitter) (docs1 docs2 : list Document) :
  split_documents self (docs1 ++ docs2)
  = c1 ← split_documents self docs1;
    c2 ← split_documents self docs2;
    Some (c1 ++ c2).
Proof.
  induction docs1 as [|doc docs1 IH]; cbn [app split_documents].
  - simpl. by destruct (split_documents self docs2).
  - destruct (split_text self (page_content doc)) as [cs|]; simpl; [|done].
    rewrite IH. destruct (split_documents self docs1) as [c1|]; simpl; [|done].
    destruct (split_documents self docs2) as [c2|]; simpl; [|done].
    by rewrite app_assoc.
Qed.

Lemma split_documents_total (docs : list Document) :
  is_Some (split_documents splitter docs).
Proof.
  induction docs as [|doc docs [more Hmore]]; [by eexists|].
  destruct (split_text_bound (page_content doc)) as (cs & Hcs & _).
  cbn [split_documents]. rewrite Hcs, Hmore. by eexists.
Qed.

(** X3: the files of a directory are split one by one: the chunks of two
    listings put together are the chunks of the first followed by the chunks
    of the second, so that no chunk holds text of two files. *)
Theorem chunks_file_by_file (listing1 listing2 : list (str * str)) :
  ∃ c1 c2,
    chunks listing1 = Some c1 ∧ chunks listing2 = Some c2
    ∧ chunks (listing1 ++ listing2) = Some (c1 ++ c2).
Proof.
  unfold chunks, load_docs. rewrite flat_map_app, split_documents_app.
  destruct (split_documents_total
              (flat_map (λ '(filename, text),
                 if endswith filename (lit ".md")
                 then [mkDocument text
                         [(lit "source", docs_dir ++ lit "/" ++ filename)]]
                 else []) listing1)) as [c1 ->].
  destruct (split_documents_total
              (flat_map (λ '(filename, text),
                 if endswith filename (lit ".md")
                 then [mkDocument text
                         [(lit "source", docs_dir ++ lit "/" ++ filename)]]
                 else []) listing2)) as [c2 ->].
  by exists c1, c2.
Qed.

Lemma split_documents_chunk (self : TextSplitter) (docs ds : list Document)
    (d : Document) :
  split_documents self docs = Some ds → d ∈ ds →
  ∃ doc cs, doc ∈ docs ∧ metadata d = metadata doc
            ∧ split_text self (page_content doc) = Some cs
            ∧ page_content d ∈ cs.
Proof.
  revert ds. induction docs as [|doc docs IH]; intros ds; cbn [split_documents].
  - intros [= <-] Hd. by apply elem_of_nil in Hd.
  - destruct (split_text self (page_content doc)) as [cs|] eqn:Hcs;
      simpl; [|done].
    destruct (split_documents self docs) as [more|]; simpl; [|done].
    intros [= <-] [Hd|Hd]%elem_of_app.
    + apply list_elem_of_fmap in Hd as (c & -> & Hc).
      exists doc, cs. split_and!; try done. apply list_elem_of_here.
    + destruct (IH more eq_refl Hd) as (doc' & cs' & ? & ? & ? & ?).
      exists doc', cs'. split_and!; try done. by apply list_elem_of_further.
Qed.

Lemma load_docs_elem (listing : list (str * str)) (doc : Document) :
  doc ∈ load_docs listing →
  ∃ filename text,
    (filename, text) ∈ listing ∧ endswith filename (lit ".md") = true
    ∧ doc = mkDocument text [(lit "source", docs_dir ++ lit "/" ++ filename)].
Proof.
  unfold load_docs. intros Hdoc. apply list_elem_of_In, in_flat_map in Hdoc.
  destruct Hdoc as ([filename text] & Hin & Hdoc).
  destruct (endswith filename (lit ".md")) eqn:Hmd; [|done].
  destruct Hdoc as [<-|[]]. exists filename, text.
  split_and!; try done. by apply list_elem_of_In.
Qed.

(** X4: every chunk handed to the embedding step comes from a listed file
    whose name ends with [.md]: its metadata is the path of that file under
    ["source"], and its text is a trimmed run of consecutive characters of
    the text of that file. *)
Theorem chunk_has_its_source (listing : list (str * str))
    (ds : list Document) (d : Document) :
  chunks listing = Some ds → d ∈ ds →
  ∃ filename text,
    (filename, text) ∈ listing
    ∧ endswith filename (lit ".md") = true
    ∧ metadata d = [(lit "source", lit "cleaned-markdown/" ++ filename)]
    ∧ substring_of (page_content d) text
    ∧ trimmed (page_content d).
Proof.
  intros Hds Hd. unfold chunks in Hds.
  destruct (split_documents_chunk _ _ _ _ Hds Hd)
    as (doc & cs & Hdoc & Hmeta & Hcs & Hc).
  apply load_docs_elem in Hdoc as (filename & text & Hin & Hmd & ->).
  simpl in *. destruct (split_text_chunk _ _ _ Hcs Hc).
  exists filename, text. by split_and!.
Qed.

Lemma chunk_has_its_source_witness :
  ∃ filename text,
    (filename, text) ∈ [(lit "rome.md", lit "  Rome." ++ nl);
                        (lit "notes.txt", lit "Paris.")]
    ∧ endswith filename (lit ".md") = true
    ∧ metadata (mkDocument (lit "Rome.")
                  [(lit "source", lit "cleaned-markdown/rome.md")])
      = [(lit "source", lit "cleaned-markdown/" ++ filename)]
    ∧ substring_of (lit "Rome.") text
    ∧ trimmed (lit "Rome.").
Proof.
  apply (chunk_has_its_source
           [(lit "rome.md", lit "  Rome." ++ nl); (lit "notes.txt", lit "Paris.")]
           [mkDocument (lit "Rome.")
              [(lit "source", lit "cleaned-markdown/rome.md")]]).
  - vm_compute. reflexivity.
  - apply list_elem_of_here.
Defined.

(** ** The cleaner: what is left of the clutter and of the junk *)

Lemma find_None (q : node → bool) (soup : node) :
  find q soup = None ↔
  ∀ p x, p ≠ [] → lookup_path p soup = Some x → q x = false.
Proof.
  unfold find. rewrite first_in_None. split.
  - intros Hall [|i p] x Hne Hx; [done|].
    destruct soup as [|name attrs c]; [done|]. simpl in Hx, Hall.
    destruct (c !! i) as [y|] eqn:Hi; simpl in Hx; [|done].
    apply (proj1 (find_from_None q y)
             (Forall_lookup_1 _ _ _ _ Hall Hi) p x Hx).
  - intros Hall. destruct soup as [|name attrs c]; [by constructor|].
    apply Forall_lookup. intros i y Hi. apply find_from_None.
    simpl in Hi. intros p x Hx. apply (Hall (i :: p)); [done|].
    simpl. by rewrite Hi.
Qed.

Lemma Forall_omap_pruned (P : node → Prop) (g : node → option node)
    (l : list node) :
  Forall (λ x, ∀ y, g x = Some y → P y) l → Forall P (omap g l).
Proof.
  induction 1 as [|x l Hx _ IH]; simpl; [by constructor|].
  destruct (g x) as [y|] eqn:Hg; [constructor; auto|done].
Qed.

(** Taking the selected elements out keeps a document free of [q]. *)
Lemma decompose_selected_free (q : node → bool) (sel : selector) :
  shallow q →
  ∀ n inside y, decompose_selected sel inside n = Some y →
                find_from q n = None → find_from q y = None.
Proof.
  intros Hq.
  induction n as [k s|name attrs c IH] using node_induction;
    intros inside y; cbn [decompose_selected].
  - by intros [= <-].
  - destruct (selected sel inside _); [done|]. intros [= <-].
    cbn [find_from]. destruct (q (Tag name attrs c)) eqn:Hn; [done|].
    rewrite (Hq name attrs _ c), Hn, !first_in_None. intros Hfree. apply Forall_omap_pruned.
    apply Forall_forall. intros x Hx z Hz.
    rewrite Forall_forall in IH, Hfree. eapply IH; eauto.
Qed.

(** After [.c] is taken out, no element of the class [c] is left below. *)
Lemma decompose_selected_class (c : str) :
  ∀ n inside y, decompose_selected (ByClass c) inside n = Some y →
                find_from (has_class c) y = None.
Proof.
  induction n as [k s|name attrs cs IH] using node_induction;
    intros inside y; cbn [decompose_selected selected].
  - by intros [= <-].
  - destruct (has_class c (Tag name attrs cs)) eqn:Hc; [done|].
    intros [= <-]. cbn [find_from].
    change (has_class c (Tag name attrs
              (omap (decompose_selected (ByClass c) inside) cs)))
      with (has_class c (Tag name attrs cs)).
    rewrite Hc. apply first_in_None, Forall_omap_pruned, Forall_forall.
    intros x Hx z Hz. rewrite Forall_forall in IH. eapply IH; eauto.
Qed.

Lemma has_class_shallow (c : str) : shallow (has_class c).
Proof. done. Qed.

Lemma is_junk_string_shallow : shallow is_junk_string.
Proof. done. Qed.

Lemma remove_selected_free (q : node → bool) (sel : selector) (soup : node) :
  shallow q → find q soup = None → find q (remove_selected sel soup) = None.
Proof.
  intros Hq. unfold find. destruct soup as [|name attrs c]; [done|].
  cbn [remove_selected contents_of]. rewrite !first_in_None. intros Hfree.
  apply Forall_omap_pruned, Forall_forall. intros x Hx z Hz.
  rewrite Forall_forall in Hfree. eapply decompose_selected_free; eauto.
Qed.

Lemma remove_selected_class (c : str) (soup : node) :
  find (has_class c) (remove_selected (ByClass c) soup) = None.
Proof.
  unfold find. destruct soup as [|name attrs cs]; [done|].
  cbn [remove_selected contents_of]. apply first_in_None.
  apply Forall_omap_pruned, Forall_forall. intros x Hx z Hz.
  by eapply decompose_selected_class.
Qed.

Lemma extract_junk_free (q : node → bool) :
  shallow q →
  ∀ n y, extract_junk n = Some y → find_from q n = None →
         find_from q y = None.
Proof.
  intros Hq.
  induction n as [k s|name attrs c IH] using node_induction;
    intros y; cbn [extract_junk].
  - destruct (junk s); [done|]. by intros [= <-].
  - intros [= <-]. cbn [find_from].
    destruct (q (Tag name attrs c)) eqn:Hn; [done|].
    rewrite (Hq name attrs _ c), Hn, !first_in_None. intros Hfree. apply Forall_omap_pruned.
    apply Forall_forall. intros x Hx z Hz.
    rewrite Forall_forall in IH, Hfree. eapply IH; eauto.
Qed.

Lemma extract_junk_clean :
  ∀ n y, extract_junk n = Some y → find_from is_junk_string y = None.
Proof.
  induction n as [k s|name attrs c IH] using node_induction;
    intros y; cbn [extract_junk].
  - destruct (junk s) eqn:Hs; [done|]. intros [= <-]. simpl. by rewrite Hs.
  - intros [= <-]. cbn [find_from is_junk_string].
    apply first_in_None, Forall_omap_pruned, Forall_forall.
    intros x Hx z Hz. rewrite Forall_forall in IH. eapply IH; eauto.
Qed.

Lemma remove_junk_free (q : node → bool) (soup : node) :
  shallow q → find q soup = None → find q (remove_junk soup) = None.
Proof.
  intros Hq. unfold find. destruct soup as [|name attrs c]; [done|].
  cbn [remove_junk contents_of]. rewrite !first_in_None. intros Hfree.
  apply Forall_omap_pruned, Forall_forall. intros x Hx z Hz.
  rewrite Forall_forall in Hfree. eapply extract_junk_free; eauto.
Qed.

Lemma remove_junk_clean (soup : node) :
  find is_junk_string (remove_junk soup) = None.
Proof.
  unfold find. destruct soup as [|name attrs cs]; [done|].
  cbn [remove_junk contents_of]. apply first_in_None.
  apply Forall_omap_pruned, Forall_forall. intros x Hx z Hz.
  by eapply extract_junk_clean.
Qed.

Lemma while_current_Forall (P : node → Prop) (fuel : nat) :
  ∀ siblings current heading out heading',
    Forall P siblings →
    while_current fuel siblings current heading = Some (out, heading') →
    Forall P out.
Proof.
  induction fuel as [|fuel IH]; intros siblings current heading out heading';
    [done|].
  intros Hall. cbn [while_current].
  destruct (find_next_sibling siblings current) as [next|].
  - destruct (starts_with_h (siblings !! next)).
    + by intros [= <- _].
    + apply IH. by apply Forall_delete.
  - intros [= <- _]. by apply Forall_delete.
Qed.

(** Lines 36 to 43 only take siblings out. *)
Lemma remove_section_Forall (P : node → Prop) (siblings : list node)
    (heading : nat) :
  Forall P siblings → Forall P (remove_section siblings heading).
Proof.
  intros Hall. unfold remove_section.
  destruct (while_current _ siblings heading (Some heading))
    as [[out [h|]]|] eqn:Hloop; [| |done].
  - apply Forall_delete. by eapply while_current_Forall.
  - by eapply while_current_Forall.
Qed.

Lemma alter_siblings_free (q : node → bool)
    (f : list node → nat → list node) :
  shallow q →
  (∀ l i, Forall (λ x, find_from q x = None) l →
          Forall (λ x, find_from q x = None) (f l i)) →
  ∀ p n, find_from q n = None → find_from q (alter_siblings f p n) = None.
Proof.
  intros Hq Hf. induction p as [|i p IH]; intros [k s|name attrs c]; try done.
  cbn [find_from]. destruct (q (Tag name attrs c)) eqn:Hn; [done|].
  intros Hfree%first_in_None. destruct p as [|i' p].
  - cbn [alter_siblings find_from]. rewrite (Hq name attrs _ c), Hn.
    by apply first_in_None, Hf.
  - cbn [alter_siblings find_from]. rewrite (Hq name attrs _ c), Hn.
    apply first_in_None, Forall_alter; [done|]. intros x _. apply IH.
Qed.

Lemma find_alter_siblings_free (q : node → bool)
    (f : list node → nat → list node) (p : path) (soup : node) :
  shallow q →
  (∀ l i, Forall (λ x, find_from q x = None) l →
          Forall (λ x, find_from q x = None) (f l i)) →
  find q soup = None → find q (alter_siblings f p soup) = None.
Proof.
  intros Hq Hf. unfold find. destruct soup as [|name attrs c]; [by destruct p|].
  intros Hfree. destruct p as [|i [|i' p]]; cbn [alter_siblings contents_of];
    apply first_in_None; apply first_in_None in Hfree.
  - done.
  - by apply Hf.
  - apply Forall_alter; [done|]. intros x _. apply (alter_siblings_free q f Hq Hf (i' :: p)).
Qed.

Lemma remove_see_also_free (q : node → bool) (soup : node) :
  shallow q → find q soup = None → find q (remove_see_also soup) = None.
Proof.
  intros Hq Hfree. unfold remove_see_also.
  destruct (see_also_span_of soup) as [span|]; [|done].
  destruct (find_parent (lit "h2") soup span) as [heading|]; [|done].
  apply find_alter_siblings_free; [done| |done].
  intros l i. apply remove_section_Forall.
Qed.

Lemma clean_soup_steps (soup out : node) :
  clean_soup soup = Return out →
  ∃ kept,
    retain_main_content soup = Return kept
    ∧ out = remove_see_also
              (remove_junk
                 (remove_selected
                    (Descendant (lit "mw-parser-output") (lit "hlist"))
                    (remove_selected (ByClass (lit "mw-editsection"))
                       (remove_selected (ByClass (lit "toc"))
                          (remove_selected (ByClass (lit "printfooter"))
                             (remove_selected (ByClass (lit "navbox"))
                                kept)))))).
Proof.
  unfold clean_soup.
  destruct (retain_main_content soup) as [kept|e|]; [|done|done].
  intros [= <-]. by exists kept.
Qed.

(** X5: in the document that [clean_html_file] writes, no element has the
    class [navbox], [printfooter], [toc] or [mw-editsection]. *)
Theorem cleaned_has_no_clutter (soup out : node) (c : str) (p : path)
    (x : node) :
  clean_soup soup = Return out →
  c ∈ [lit "navbox"; lit "printfooter"; lit "toc"; lit "mw-editsection"] →
  p ≠ [] → lookup_path p out = Some x →
  has_class c x = false.
Proof.
  intros (kept & _ & ->)%clean_soup_steps Hc. revert p x. apply find_None.
  apply remove_see_also_free, remove_junk_free, remove_selected_free;
    try apply has_class_shallow.
  rewrite !elem_of_cons in Hc.
  destruct Hc as [->|[->|[->|[->|Hc]]]]; [| | | |by apply elem_of_nil in Hc].
  - do 3 (apply remove_selected_free; [apply has_class_shallow|]).
    apply remove_selected_class.
  - do 2 (apply remove_selected_free; [apply has_class_shallow|]).
    apply remove_selected_class.
  - apply remove_selected_free; [apply has_class_shallow|].
    apply remove_selected_class.
  - apply remove_selected_class.
Qed.

Lemma cleaned_has_no_clutter_witness :
  has_class (lit "navbox") paris = false.
Proof.
  apply (cleaned_has_no_clutter paris_page
           (BeautifulSoup [element "html" [] [element "body" [] [paris]]])
           (lit "navbox") [0; 0; 0] paris).
  - vm_compute. reflexivity.
  - apply list_elem_of_here.
  - done.
  - reflexivity.
Defined.

(** X6: in the parse tree that lines 10 to 43 leave, the one that line 46
    serialises, no string node, of any kind, contains ["wiki."],
    ["Retrieved from"] or ["In other languages:"]. *)
Theorem cleaned_has_no_junk (soup out : node) (p : path)
    (kind : string_kind) (s marker : str) :
  clean_soup soup = Return out →
  p ≠ [] → lookup_path p out = Some (NavigableString kind s) →
  marker ∈ [lit "wiki."; lit "Retrieved from"; lit "In other languages:"] →
  ¬ substring_of marker s.
Proof.
  intros (kept & _ & ->)%clean_soup_steps Hp Hs Hmarker.
  assert (junk s = false) as Hjunk.
  { apply (proj1 (find_None is_junk_string _)
             (remove_see_also_free _ _ is_junk_string_shallow
                (remove_junk_clean _)) p _ Hp Hs). }
  unfold junk in Hjunk. apply orb_false_iff in Hjunk as [Hjunk H3].
  apply orb_false_iff in Hjunk as [H1 H2].
  intros Hsub%contains_spec. rewrite !elem_of_cons in Hmarker.
  destruct Hmarker as [->|[->|[->|Hm]]]; [| | |by apply elem_of_nil in Hm];
    congruence.
Qed.

Lemma cleaned_has_no_junk_witness :
  ¬ substring_of (lit "wiki.") (lit "Paris is the capital of France.").
Proof.
  apply (cleaned_has_no_junk paris_page
           (BeautifulSoup [element "html" [] [element "body" [] [paris]]])
           [0; 0; 0; 0; 0] Text).
  - vm_compute. reflexivity.
  - done.
  - reflexivity.
  - apply list_elem_of_here.
Defined.

(** The property is one of the string nodes, not of the text that is
    written: two strings that the removal of an element has left side by
    side are written one after the other. *)
Example marker_across_strings :
  clean_soup split_marker
  = Return (BeautifulSoup [element "p" [] [text "wi"; text "ki."]]).
Proof. vm_compute. reflexivity. Qed.

(** ** What the cleaner leaves is from the file

    [g] reads a list off a tree: what the node itself gives ([own], which
    does not look at the [contents]) and then what its children give. *)

Lemma elem_of_flat_map {A B} (f : A → list B) (l : list A) (b : B) :
  b ∈ flat_map f l ↔ ∃ x, x ∈ l ∧ b ∈ f x.
Proof.
  rewrite list_elem_of_In, in_flat_map. split.
  - intros (x & Hx & Hb). exists x. by rewrite !list_elem_of_In.
  - intros (x & Hx & Hb). exists x. by rewrite <- !list_elem_of_In.
Qed.

Section content.
Context {A : Type}.
Variables g own : node → list A.
Hypothesis g_eq : ∀ n, g n = own n ++ flat_map g (contents_of n).
Hypothesis own_shallow :
  ∀ name attrs c c', own (Tag name attrs c) = own (Tag name attrs c').

Lemma content_tag (name : str) (attrs : list (str * str))
    (cs cs' : list node) (extra : list A) :
  flat_map g cs' ⊆ flat_map g cs ++ extra →
  g (Tag name attrs cs') ⊆ g (Tag name attrs cs) ++ extra.
Proof using g_eq own_shallow.
  intros Hsub a. rewrite !(g_eq (Tag _ _ _)). cbn [contents_of].
  rewrite (own_shallow name attrs cs' cs), !elem_of_app.
  intros [?|Ha%Hsub]; [auto|]. apply elem_of_app in Ha. tauto.
Qed.

Lemma content_tag_sub (name : str) (attrs : list (str * str))
    (cs cs' : list node) :
  flat_map g cs' ⊆ flat_map g cs →
  g (Tag name attrs cs') ⊆ g (Tag name attrs cs).
Proof using g_eq own_shallow.
  intros Hsub a Ha. apply (content_tag name attrs cs cs' []) in Ha.
  - by rewrite app_nil_r in Ha.
  - intros b Hb. rewrite app_nil_r. by apply Hsub.
Qed.

Lemma content_omap (f : node → option node) (cs : list node) :
  Forall (λ x, ∀ y, f x = Some y → g y ⊆ g x) cs →
  flat_map g (omap f cs) ⊆ flat_map g cs.
Proof.
  intros Hall a (y & Hy & Ha)%elem_of_flat_map.
  apply list_elem_of_omap in Hy as (x & Hx & Hf).
  apply elem_of_flat_map. exists x. split; [done|].
  rewrite Forall_forall in Hall. by apply (Hall x Hx y Hf).
Qed.

Lemma content_sublist (cs cs' : list node) :
  cs' ⊆ cs → flat_map g cs' ⊆ flat_map g cs.
Proof.
  intros Hsub a (x & Hx & Ha)%elem_of_flat_map.
  apply elem_of_flat_map. exists x. auto.
Qed.

Lemma content_alter (h : node → node) (i : nat) (cs : list node)
    (extra : list A) :
  (∀ x, g (h x) ⊆ g x ++ extra) →
  flat_map g (alter h i cs) ⊆ flat_map g cs ++ extra.
Proof.
  intros Hh a (y & Hy & Ha)%elem_of_flat_map.
  apply list_elem_of_lookup in Hy as [j Hj].
  destruct (decide (i = j)) as [->|Hne].
  - rewrite list_lookup_alter_eq in Hj.
    destruct (cs !! j) as [x|] eqn:Hx; [|done]. injection Hj as <-.
    apply Hh, elem_of_app in Ha as [Ha|Ha]; apply elem_of_app; [left|auto].
    apply elem_of_flat_map. exists x. split; [|done].
    by eapply list_elem_of_lookup_2.
  - rewrite list_lookup_alter_ne in Hj by done. apply elem_of_app. left.
    apply elem_of_flat_map. exists y. split; [|done].
    by eapply list_elem_of_lookup_2.
Qed.

Lemma content_decompose_selected (sel : selector) :
  ∀ n inside y, decompose_selected sel inside n = Some y → g y ⊆ g n.
Proof using g_eq own_shallow.
  induction n as [k s|name attrs cs IH] using node_induction;
    intros inside y; cbn [decompose_selected].
  - by intros [= <-].
  - destruct (selected sel inside (Tag name attrs cs)); [done|].
    intros [= <-]. apply content_tag_sub, content_omap.
    eapply Forall_impl; [exact IH|]. intros x Hx. apply Hx.
Qed.

Lemma content_remove_selected (sel : selector) (soup : node) :
  g (remove_selected sel soup) ⊆ g soup.
Proof using g_eq own_shallow.
  destruct soup as [k s|name attrs cs]; [done|]. cbn [remove_selected].
  apply content_tag_sub, content_omap, Forall_forall.
  intros x _. apply content_decompose_selected.
Qed.

Lemma content_extract_junk :
  ∀ n y, extract_junk n = Some y → g y ⊆ g n.
Proof using g_eq own_shallow.
  induction n as [k s|name attrs cs IH] using node_induction;
    intros y; cbn [extract_junk].
  - destruct (junk s); [done|]. by intros [= <-].
  - intros [= <-]. by apply content_tag_sub, content_omap.
Qed.

Lemma content_remove_junk (soup : node) : g (remove_junk soup) ⊆ g soup.
Proof using g_eq own_shallow.
  destruct soup as [k s|name attrs cs]; [done|]. cbn [remove_junk].
  apply content_tag_sub, content_omap, Forall_forall.
  intros x _. apply content_extract_junk.
Qed.

Lemma content_lookup :
  ∀ p n x, lookup_path p n = Some x → g x ⊆ g n.
Proof using g_eq.
  induction p as [|i p IH]; intros n x; cbn [lookup_path].
  - by intros [= <-].
  - destruct n as [k s|name attrs cs]; [done|].
    destruct (cs !! i) as [y|] eqn:Hy; [|done]. cbn. intros Hx a Ha.
    rewrite (g_eq (Tag _ _ _)). cbn [contents_of]. apply elem_of_app. right.
    apply elem_of_flat_map. exists y. split.
    + by eapply list_elem_of_lookup_2.
    + by apply (IH y x Hx).
Qed.

Lemma content_alter_contents (f : list node → list node) (extra : list A) :
  (∀ cs, flat_map g (f cs) ⊆ flat_map g cs ++ extra) →
  ∀ p n, g (alter_contents f p n) ⊆ g n ++ extra.
Proof using g_eq own_shallow.
  intros Hf. induction p as [|i p IH]; intros [k s|name attrs cs];
    cbn [alter_contents]; try (intros a Ha; apply elem_of_app; by left).
  - apply content_tag, Hf.
  - apply content_tag, content_alter, IH.
Qed.

Lemma content_alter_siblings (f : list node → nat → list node) :
  (∀ cs i, f cs i ⊆ cs) →
  ∀ p n, g (alter_siblings f p n) ⊆ g n.
Proof using g_eq own_shallow.
  intros Hf. induction p as [|i p IH]; intros [k s|name attrs cs]; try done.
  destruct p as [|i' p]; cbn [alter_siblings].
  - apply content_tag_sub, content_sublist, Hf.
  - apply content_tag_sub. intros a Ha.
    apply (content_alter _ _ _ []) in Ha; [by rewrite app_nil_r in Ha|].
    intros x b Hb. rewrite app_nil_r. by apply (IH x).
Qed.

Lemma content_remove_at (p : path) (n : node) : g (remove_at p n) ⊆ g n.
Proof using g_eq own_shallow.
  apply content_alter_siblings. intros cs i. apply list_subseteq_delete.
Qed.

Lemma content_remove_see_also (soup : node) :
  g (remove_see_also soup) ⊆ g soup.
Proof using g_eq own_shallow.
  unfold remove_see_also.
  destruct (see_also_span_of soup) as [span|]; [|done].
  destruct (find_parent (lit "h2") soup span) as [heading|]; [|done].
  apply content_alter_siblings. intros cs i x.
  assert (Forall (λ x : node, x ∈ cs) (remove_section cs i)) as Hall.
  { apply remove_section_Forall. by apply Forall_forall. }
  rewrite Forall_forall in Hall. apply Hall.
Qed.

Lemma content_retain_main_content (soup kept : node) :
  retain_main_content soup = Return kept → g kept ⊆ g soup.
Proof using g_eq own_shallow.
  unfold retain_main_content.
  destruct (content_root_of soup) as [content_root|]; [|by intros [= <-]].
  destruct (body_of soup) as [body|]; [|done].
  destruct (lookup_path content_root soup) as [c|] eqn:Hc;
    [|by intros [= <-]].
  assert (g (clear body soup) ⊆ g soup) as Hclear.
  { intros a Ha. apply (content_alter_contents _ []) in Ha.
    - by rewrite app_nil_r in Ha.
    - intros cs b Hb. by apply elem_of_nil in Hb. }
  unfold append. case_bool_decide.
  - destruct (existsb _ _); [|done]. intros [= <-] a Ha.
    by apply content_remove_at, Hclear in Ha.
  - intros [= <-] a Ha.
    apply (content_alter_contents _ (g c)) in Ha.
    + apply elem_of_app in Ha as [Ha|Ha].
      * case_bool_decide; [auto|]. by apply content_remove_at, Hclear in Ha.
      * by apply (content_lookup _ _ _ Hc).
    + intros cs b. rewrite flat_map_app. cbn [flat_map].
      by rewrite app_nil_r.
Qed.

Lemma content_clean_soup (soup out : node) :
  clean_soup soup = Return out → g out ⊆ g soup.
Proof using g_eq own_shallow.
  intros (kept & Hkept & ->)%clean_soup_steps a Ha.
  apply (content_retain_main_content _ _ Hkept).
  apply content_remove_see_also, content_remove_junk in Ha.
  by do 5 apply content_remove_selected in Ha.
Qed.
End content.

(** X7: the cleaning adds nothing: every string of the document that
    [clean_html_file] writes is a string of the document it read, and every
    element has the name and the attributes of an element of the document it
    read. *)
Theorem cleaned_is_from_the_file (soup out : node) :
  clean_soup soup = Return out →
  strings_of out ⊆ strings_of soup ∧ tags_of out ⊆ tags_of soup.
Proof.
  intros Hout. split.
  - apply (content_clean_soup strings_of
             (λ n, if n is NavigableString _ s then [s] else []));
      [by intros [] | done | done].
  - apply (content_clean_soup tags_of
             (λ n, if n is Tag name attrs _ then [(name, attrs)] else []));
      [by intros [] | done | done].
Qed.

Lemma cleaned_is_from_the_file_witness :
  strings_of (BeautifulSoup [element "html" [] [element "body" [] [paris]]])
    ⊆ strings_of paris_page
  ∧ tags_of (BeautifulSoup [element "html" [] [element "body" [] [paris]]])
    ⊆ tags_of paris_page.
Proof.
  apply (cleaned_is_from_the_file paris_page). vm_compute. reflexivity.
Defined.

Lemma flat_map_omap {A} (g : node → list A) (f : node → option node)
    (cs : list node) :
  flat_map g (omap f cs) = flat_map (λ x, from_option g [] (f x)) cs.
Proof.
  induction cs as [|x cs IH]; [done|]. cbn [omap list_omap flat_map].
  fold (omap f cs). destruct (f x); cbn [flat_map from_option]; by rewrite IH.
Qed.

Lemma flat_map_Forall_ext {A} (g h : node → list A) (cs : list node) :
  Forall (λ x, g x = h x) cs → flat_map g cs = flat_map h cs.
Proof. induction 1 as [|x cs Hx _ IH]; simpl; congruence. Qed.

Lemma filter_flat_map {A} (P : A → Prop) `{∀ a, Decision (P a)}
    (g : node → list A) (cs : list node) :
  filter P (flat_map g cs) = flat_map (λ x, filter P (g x)) cs.
Proof.
  induction cs as [|x cs IH]; [done|]. simpl. by rewrite filter_app, IH.
Qed.

Lemma extract_junk_strings (n : node) :
  from_option strings_of [] (extract_junk n)
  = filter (λ s, junk s = false) (strings_of n).
Proof.
  induction n as [k s|name attrs cs IH] using node_induction.
  - cbn [extract_junk strings_of]. rewrite filter_cons, filter_nil.
    destruct (junk s); [by rewrite decide_False|by rewrite decide_True].
  - cbn [extract_junk from_option strings_of].
    rewrite flat_map_omap, filter_flat_map. by apply flat_map_Forall_ext.
Qed.

Lemma extract_junk_tags (n : node) :
  from_option tags_of [] (extract_junk n) = tags_of n.
Proof.
  induction n as [k s|name attrs cs IH] using node_induction.
  - cbn [extract_junk]. by destruct (junk s).
  - cbn [extract_junk from_option tags_of]. f_equal.
    rewrite flat_map_omap. by apply flat_map_Forall_ext.
Qed.

(** X8: lines 24 to 29 take out strings only, and exactly those that
    contain one of the three markers: the strings of the document are, in
    order, the strings it had that contain no marker, and its elements are
    the elements it had, in order, with their names and attributes. *)
Theorem junk_removal_takes_the_junk_strings (contents : list node) :
  strings_of (remove_junk (BeautifulSoup contents))
  = filter (λ s, junk s = false) (strings_of (BeautifulSoup contents))
  ∧ tags_of (remove_junk (BeautifulSoup contents))
    = tags_of (BeautifulSoup contents).
Proof.
  unfold BeautifulSoup. cbn [remove_junk strings_of tags_of]. split.
  - rewrite flat_map_omap, filter_flat_map. apply flat_map_Forall_ext.
    apply Forall_forall. intros x _. apply extract_junk_strings.
  - f_equal. rewrite flat_map_omap. apply flat_map_Forall_ext.
    apply Forall_forall. intros x _. apply extract_junk_tags.
Qed.

(** X9: when no element whose name starts with ["h"] follows the heading
    among its siblings, lines 36 to 43 take out the heading and every
    element after it; the siblings before the heading and the strings after
    it stay. *)
Theorem see_also_to_the_end (before rest : list node) (heading : node) :
  Forall (λ n, starts_with_h (Some n) = false) rest →
  remove_section (before ++ heading :: rest) (length before)
  = before ++ filter (λ n, is_tag n = false) rest.
Proof.
  intros. rewrite remove_section_spec. by rewrite after_current_to_the_end.
Qed.

Lemma see_also_to_the_end_witness :
  remove_section
    [element "p" [] [text "Rome is the capital of Italy."];
     see_also_heading; text "Related: "; see_also_list;
     element "p" [] [text "Livy, History of Rome."]] 1
  = [element "p" [] [text "Rome is the capital of Italy."];
     text "Related: "].
Proof.
  apply (see_also_to_the_end
           [element "p" [] [text "Rome is the capital of Italy."]]
           [text "Related: "; see_also_list;
            element "p" [] [text "Livy, History of Rome."]]
           see_also_heading).
  repeat constructor.
Defined.

(** ** The main loop *)

Lemma startswith_path_join (dir filename : str) :
  startswith (path_join dir filename) (dir ++ lit "/") = true.
Proof.
  apply startswith_spec. unfold path_join.
  by rewrite app_assoc, drop_app_length.
Qed.

Section main_loop.
Variable partition_html : node → outcome (list str).

(** A pass of the loop that ends has read, cleaned, written, partitioned
    and written again. *)
Lemma process_Return (filename : str) (w w' : world) :
  process partition_html filename w = (Return (), w') →
  if endswith filename (lit ".html") then
    ∃ soup out elements,
      files w !! path_join input_dir filename = Some (Html soup)
      ∧ clean_soup soup = Return out
      ∧ partition_html out = Return elements
      ∧ w' = mkWorld (<[path_join temp_dir filename := Html out]> (files w))
               (<[markdown_path filename := join (nl ++ nl) elements]>
                  (texts w))
               (raw_html w) (stdout w)
  else w' = w.
Proof.
  unfold process. destruct (endswith filename (lit ".html"));
    [|by intros [= <-]].
  unfold clean_html_file, bind, read_html, lift, write_html, write_text.
  destruct (files w !! path_join input_dir filename) as [[e|soup]|];
    [done| |done].
  destruct (clean_soup soup) as [out|e|] eqn:Hout; [|done|done].
  cbn [files]. rewrite lookup_insert_eq.
  destruct (partition_html out) as [elements|e|] eqn:Hel; [|done|done].
  intros [= <-]. by exists soup, out, elements.
Qed.

(** Whatever the outcome of a pass, it writes at most the cleaned file and
    the markdown file of its name. *)
Lemma process_frame (filename : str) (w : world) :
  raw_html (process partition_html filename w).2 = raw_html w
  ∧ (∀ path, path ≠ path_join temp_dir filename →
       files (process partition_html filename w).2 !! path = files w !! path)
  ∧ (∀ path, path ≠ markdown_path filename →
       texts (process partition_html filename w).2 !! path
       = texts w !! path).
Proof.
  unfold process. destruct (endswith filename (lit ".html")); [|done].
  unfold clean_html_file, bind, read_html, lift, write_html, write_text.
  destruct (files w !! path_join input_dir filename) as [[e|soup]|];
    [done| |done].
  destruct (clean_soup soup) as [out|e|]; [|done|done].
  cbn [files]. rewrite lookup_insert_eq.
  destruct (partition_html out) as [elements|e|]; cbn;
    split_and!; try done; intros path Hpath;
    by rewrite lookup_insert_ne.
Qed.

Lemma for_each_process_frame (names : list str) (w : world) :
  raw_html (for_each names (process partition_html) w).2 = raw_html w
  ∧ (∀ path, startswith path (lit "cleaned-html/") = false →
       files (for_each names (process partition_html) w).2 !! path
       = files w !! path)
  ∧ (∀ path, startswith path (lit "cleaned-markdown/") = false →
       texts (for_each names (process partition_html) w).2 !! path
       = texts w !! path).
Proof.
  revert w. induction names as [|name names IH]; intros w; [done|].
  cbn [for_each]. unfold bind.
  destruct (process_frame name w) as (Hraw & Hfiles & Htexts).
  assert (∀ path, startswith path (lit "cleaned-html/") = false →
                  path ≠ path_join temp_dir name) as Hf.
  { intros path Hpath ->.
    change (lit "cleaned-html/") with (temp_dir ++ lit "/") in Hpath.
    by rewrite startswith_path_join in Hpath. }
  assert (∀ path, startswith path (lit "cleaned-markdown/") = false →
                  path ≠ markdown_path name) as Ht.
  { intros path Hpath ->. unfold markdown_path in Hpath.
    change (lit "cleaned-markdown/") with (output_dir ++ lit "/") in Hpath.
    by rewrite startswith_path_join in Hpath. }
  destruct (process partition_html name w) as [[[]|e|] w1]; cbn in *.
  - destruct (IH w1) as (Hraw' & Hfiles' & Htexts').
    split_and!; [congruence| |].
    + intros path Hpath. rewrite Hfiles', Hfiles; auto.
    + intros path Hpath. rewrite Htexts', Htexts; auto.
  - split_and!; auto.
  - split_and!; auto.
Qed.

(** X10: however the run ends, with the closing message, an exception or
    not at all, the script leaves the listing of [raw-html] as it was, and
    writes no HTML file whose path does not start with ["cleaned-html/"]
    and no text file whose path does not start with ["cleaned-markdown/"];
    so every file of [raw-html] is as it was. *)
Theorem main_writes_only_its_outputs (w : world) :
  raw_html (main partition_html w).2 = raw_html w
  ∧ (∀ path, startswith path (lit "cleaned-html/") = false →
       files (main partition_html w).2 !! path = files w !! path)
  ∧ (∀ path, startswith path (lit "cleaned-markdown/") = false →
       texts (main partition_html w).2 !! path = texts w !! path)
  ∧ (∀ filename,
       files (main partition_html w).2 !! path_join input_dir filename
       = files w !! path_join input_dir filename).
Proof.
  assert (raw_html (main partition_html w).2 = raw_html w
          ∧ (∀ path, startswith path (lit "cleaned-html/") = false →
               files (main partition_html w).2 !! path = files w !! path)
          ∧ (∀ path, startswith path (lit "cleaned-markdown/") = false →
               texts (main partition_html w).2 !! path = texts w !! path))
    as (Hraw & Hfiles & Htexts).
  { unfold main, bind, listdir_raw_html, print.
    destruct (raw_html w) as [names|] eqn:Hnames; [|done].
    destruct (for_each_process_frame names w) as (Hraw & Hfiles & Htexts).
    destruct (for_each names (process partition_html) w) as [[[]|e|] w1];
      cbn in *; split_and!; auto; congruence. }
  split_and!; [done..|]. intros filename. by apply Hfiles.
Qed.

Lemma process_outputs (w0 w w' : world) (done : list str) (name : str) :
  (∀ path, startswith path (lit "cleaned-html/") = false →
           files w !! path = files w0 !! path) →
  outputs_of partition_html w0 done w →
  process partition_html name w = (Return (), w') →
  (∀ path, startswith path (lit "cleaned-html/") = false →
           files w' !! path = files w0 !! path)
  ∧ outputs_of partition_html w0 (done ++ [name]) w'.
Proof.
  intros Hframe Hdone Hpass%process_Return.
  destruct (endswith name (lit ".html")) eqn:Hhtml.
  - destruct Hpass as (soup & out & elements & Hsoup & Hout & Hel & ->).
    assert (converted partition_html w0 name out (join (nl ++ nl) elements))
      as Hconv.
    { exists soup, elements. by rewrite <- Hframe. }
    split.
    + intros path Hpath. cbn [files]. rewrite lookup_insert_ne; [auto|].
      intros <-. change (lit "cleaned-html/") with (temp_dir ++ lit "/") in Hpath.
      by rewrite startswith_path_join in Hpath.
    + intros n Hn Hnhtml. cbn [files texts]. split.
      * destruct (decide (n = name)) as [->|Hne].
        { exists out, (join (nl ++ nl) elements).
          by rewrite lookup_insert_eq. }
        apply elem_of_app in Hn as [Hn|Hn%list_elem_of_singleton]; [|done].
        destruct (Hdone n Hn Hnhtml) as [(o & c & ? & Hfile) _].
        exists o, c. rewrite lookup_insert_ne; [done|].
        unfold path_join. by intros ?%(inj (app _))%(inj (app _)).
      * destruct (decide (markdown_path name = markdown_path n)) as [Heq|Hne].
        { exists name, out, (join (nl ++ nl) elements).
          rewrite <- Heq, lookup_insert_eq. split_and!; try done.
          apply elem_of_app. right. by apply list_elem_of_singleton. }
        apply elem_of_app in Hn as [Hn|Hn%list_elem_of_singleton];
          [|by subst].
        destruct (Hdone n Hn Hnhtml) as [_ (n' & o & c & ? & ? & ? & ? & ?)].
        exists n', o, c. rewrite lookup_insert_ne by done.
        split_and!; try done. apply elem_of_app. by left.
  - subst w'. split; [done|]. intros n Hn Hnhtml.
    apply elem_of_app in Hn as [Hn|Hn%list_elem_of_singleton];
      [|congruence].
    destruct (Hdone n Hn Hnhtml) as [? (n' & o & c & ? & ? & ? & ? & ?)].
    split; [done|]. exists n', o, c. split_and!; try done.
    apply elem_of_app. by left.
Qed.

Lemma for_each_process_outputs (w0 : world) (rest : list str) :
  ∀ done w w',
    (∀ path, startswith path (lit "cleaned-html/") = false →
             files w !! path = files w0 !! path) →
    outputs_of partition_html w0 done w →
    for_each rest (process partition_html) w = (Return (), w') →
    outputs_of partition_html w0 (done ++ rest) w'.
Proof.
  induction rest as [|name rest IH]; intros done w w' Hframe Hdone.
  - intros [= <-]. by rewrite app_nil_r.
  - cbn [for_each]. unfold bind.
    destruct (process partition_html name w) as [[[]|e|] w1] eqn:Hpass;
      [|done|done].
    destruct (process_outputs w0 w w1 done name Hframe Hdone Hpass)
      as [Hframe1 Hdone1].
    intros Hrest. rewrite cons_middle, app_assoc. by eapply IH.
Qed.

(** X11: when the run ends with the closing message, [raw-html] was
    listed, the message is the only line printed, and for every listed name
    that ends in [.html] the file of that name in [cleaned-html] holds the
    cleaned document of the file of [raw-html], and its markdown file holds
    the texts of the elements of a cleaned document, joined by blank lines:
    those of a listed file with this markdown file. *)
Theorem main_converts_every_file (w w' : world) :
  main partition_html w = (Return (), w') →
  ∃ names,
    raw_html w = Some names
    ∧ stdout w' = stdout w ++ [closing_message]
    ∧ outputs_of partition_html w names w'.
Proof.
  unfold main, bind, listdir_raw_html, print.
  destruct (raw_html w) as [names|]; [|done].
  pose proof (for_each_process_stdout partition_html names w) as Hout.
  destruct (for_each names (process partition_html) w) as [[[]|e|] w1]
    eqn:Hloop; [|done|done].
  intros [= <-]. exists names. cbn in Hout. cbn [stdout]. rewrite Hout.
  split_and!; [done..|].
  apply (for_each_process_outputs w names [] w w1); [done| |done].
  by intros name Hname%elem_of_nil.
Qed.
End main_loop.

(** Two names of [raw-html] with one markdown file: [replace] rewrites
    every [.html] of a name, not only the ending. *)
Example markdown_path_shared :
  markdown_path (lit "rome.html.html") = markdown_path (lit "rome.md.html").
Proof. vm_compute. reflexivity. Qed.

Lemma main_converts_every_file_witness :
  ∃ names,
    raw_html paris_only = Some names
    ∧ stdout (main (λ out, Return (strings_of out)) paris_only).2
      = stdout paris_only ++ [closing_message]
    ∧ outputs_of (λ out, Return (strings_of out)) paris_only names
        (main (λ out, Return (strings_of out)) paris_only).2.
Proof.
  apply (main_converts_every_file (λ out, Return (strings_of out))).
  assert ((main (λ out, Return (strings_of out)) paris_only).1 = Return ())
    as Hend by (vm_compute; reflexivity).
  destruct (main _ paris_only) as [o w']. simpl in Hend. by subst.
Defined.

(** ** The selector [.mw-parser-output .hlist] *)

Lemma forallb_Forall {A} (f : A → bool) (l : list A) :
  forallb f l = true ↔ Forall (λ x, f x = true) l.
Proof.
  induction l as [|x l IH]; simpl; [by split; [constructor|]|].
  rewrite andb_true_iff, IH, Forall_cons. done.
Qed.

Lemma free_of_decompose_selected (sel : selector) :
  ∀ n inside y, decompose_selected sel inside n = Some y →
                free_of sel inside y = true.
Proof.
  induction n as [k s|name attrs cs IH] using node_induction;
    intros inside y; cbn [decompose_selected].
  - by intros [= <-].
  - destruct (selected sel inside (Tag name attrs cs)) eqn:Hsel; [done|].
    intros [= <-]. cbn [free_of].
    replace (selected sel inside (Tag name attrs (omap _ cs)))
      with (selected sel inside (Tag name attrs cs)) by by destruct sel.
    replace (enters sel inside (Tag name attrs (omap _ cs)))
      with (enters sel inside (Tag name attrs cs)) by by destruct sel.
    rewrite Hsel. apply forallb_Forall, Forall_omap_pruned.
    eapply Forall_impl; [exact IH|]. intros x Hx. apply Hx.
Qed.

Lemma free_of_extract_junk (sel : selector) :
  ∀ n inside y, extract_junk n = Some y →
                free_of sel inside n = true → free_of sel inside y = true.
Proof.
  induction n as [k s|name attrs cs IH] using node_induction;
    intros inside y; cbn [extract_junk].
  - destruct (junk s); [done|]. by intros [= <-].
  - intros [= <-]. cbn [free_of].
    replace (selected sel inside (Tag name attrs (omap extract_junk cs)))
      with (selected sel inside (Tag name attrs cs)) by by destruct sel.
    replace (enters sel inside (Tag name attrs (omap extract_junk cs)))
      with (enters sel inside (Tag name attrs cs)) by by destruct sel.
    rewrite !andb_true_iff, !forallb_Forall. intros [Hsel Hfree].
    split; [done|]. apply Forall_omap_pruned.
    rewrite Forall_forall in IH, Hfree. apply Forall_forall.
    intros x Hx z Hz. eapply IH; eauto.
Qed.

Lemma free_of_alter_siblings (sel : selector)
    (f : list node → nat → list node) :
  (∀ (P : node → Prop) l i, Forall P l → Forall P (f l i)) →
  ∀ p n inside, free_of sel inside n = true →
                free_of sel inside (alter_siblings f p n) = true.
Proof.
  intros Hf. induction p as [|i p IH]; intros [k s|name attrs cs] inside;
    try done.
  destruct p as [|i' p]; cbn [alter_siblings free_of].
  - replace (selected sel inside (Tag name attrs (f cs i)))
      with (selected sel inside (Tag name attrs cs)) by by destruct sel.
    replace (enters sel inside (Tag name attrs (f cs i)))
      with (enters sel inside (Tag name attrs cs)) by by destruct sel.
    rewrite !andb_true_iff, !forallb_Forall. intros [? ?]. auto.
  - replace (selected sel inside (Tag name attrs (alter (alter_siblings f (i' :: p)) i cs)))
      with (selected sel inside (Tag name attrs cs)) by by destruct sel.
    replace (enters sel inside (Tag name attrs (alter (alter_siblings f (i' :: p)) i cs)))
      with (enters sel inside (Tag name attrs cs)) by by destruct sel.
    rewrite !andb_true_iff, !forallb_Forall. intros [? ?].
    split; [done|]. apply Forall_alter; [done|]. intros x _. apply IH.
Qed.

(** In a tree that is free of [.ancestor .c], an element of the class [c]
    has no ancestor of the class [ancestor]. *)
Lemma free_of_lookup (ancestor c : str) :
  ∀ p n inside x,
    free_of (Descendant ancestor c) inside n = true →
    lookup_path p n = Some x → has_class c x = true →
    inside = false
    ∧ ∀ q a, q `prefix_of` p → q ≠ p → lookup_path q n = Some a →
             has_class ancestor a = false.
Proof.
  induction p as [|i p IH]; intros n inside x Hfree Hx Hc.
  - injection Hx as ->. destruct x as [k s|name attrs cs]; [done|].
    cbn [free_of selected] in Hfree. rewrite Hc, andb_true_r in Hfree.
    apply andb_true_iff in Hfree as [Hin%negb_true_iff _].
    split; [done|]. intros q a Hq%prefix_nil_inv. done.
  - destruct n as [k s|name attrs cs]; [done|]. cbn [lookup_path] in Hx.
    destruct (cs !! i) as [child|] eqn:Hchild; [|done]. cbn in Hx.
    cbn [free_of selected enters] in Hfree.
    apply andb_true_iff in Hfree as [_ Hfree].
    rewrite forallb_Forall, Forall_forall in Hfree.
    destruct (IH child _ x (Hfree child (list_elem_of_lookup_2 _ _ _ Hchild))
                Hx Hc) as [Hin Hbelow].
    apply orb_false_iff in Hin as [-> Hroot]. split; [done|].
    intros [|j q] a Hq Hne.
    + by intros [= <-].
    + apply prefix_cons_inv_1 in Hq as Hj. subst j.
      apply prefix_cons_inv_2 in Hq. cbn [lookup_path]. rewrite Hchild. cbn.
      apply Hbelow; [done|congruence].
Qed.

(** X12: in the document that [clean_html_file] writes, an element of the
    class [hlist] has no ancestor of the class [mw-parser-output] (the
    selector [.mw-parser-output .hlist] of line 18). *)
Theorem cleaned_has_no_hlist_in_parser_output (soup out : node)
    (p q : path) (x a : node) :
  clean_soup soup = Return out →
  lookup_path p out = Some x → has_class (lit "hlist") x = true →
  q `prefix_of` p → q ≠ p → lookup_path q out = Some a →
  has_class (lit "mw-parser-output") a = false.
Proof.
  intros (kept & _ & ->)%clean_soup_steps Hx Hc Hq Hne Ha.
  eapply (free_of_lookup (lit "mw-parser-output") (lit "hlist") p _ false x);
    [|done..].
  unfold remove_see_also.
  match goal with
  | |- free_of ?sel _ match _ ?cleaned with _ => _ end = true =>
      assert (free_of sel false cleaned = true) as Hfree
  end.
  { match goal with
    | |- free_of ?sel _ (remove_junk ?selected) = true =>
        assert (free_of sel false selected = true) as Hfree
    end.
    { match goal with
      | |- free_of _ _ (remove_selected _ ?t) = true =>
          destruct t as [k s|name attrs cs]; [done|]
      end.
      apply (free_of_decompose_selected _ (Tag name attrs cs) false).
      cbn [decompose_selected remove_selected selected enters andb orb].
      done. }
    match goal with
    | |- free_of _ _ (remove_junk ?t) = true =>
        destruct t as [k s|name attrs cs]; [done|]
    end.
    by apply (free_of_extract_junk _ (Tag name attrs cs) false). }
  destruct (see_also_span_of _) as [span|]; [|done].
  destruct (find_parent _ _ span) as [heading|]; [|done].
  apply free_of_alter_siblings; [|done].
  intros P l i. apply remove_section_Forall.
Qed.

Lemma cleaned_has_no_hlist_in_parser_output_witness :
  has_class (lit "mw-parser-output")
    (element "div" [attr "class" "footer"]
       [element "ul" [attr "class" "hlist"] [text "English"]])
  = false.
Proof.
  apply (cleaned_has_no_hlist_in_parser_output languages
           (BeautifulSoup
              [element "div" [attr "class" "mw-parser-output"]
                 [element "p" [] [text "Paris is the capital of France."]];
               element "div" [attr "class" "footer"]
                 [element "ul" [attr "class" "hlist"] [text "English"]]])
           [1; 0] [1]
           (element "ul" [attr "class" "hlist"] [text "English"])).
  - vm_compute. reflexivity.
  - reflexivity.
  - vm_compute. reflexivity.
  - by exists [0].
  - done.
  - reflexivity.
Defined.

(** ** The main content of a page whose body holds it *)

Lemma alter_alter {A} (f g h : A → A) (l : list A) :
  (∀ x, h x = f (g x)) →
  ∀ i, alter f i (alter g i l) = alter h i l.
Proof.
  intros Hh. induction l as [|x l IH]; intros [|i]; simpl; try done.
  - by rewrite Hh.
  - f_equal. apply IH.
Qed.

Lemma alter_contents_twice (f g h : list node → list node) :
  (∀ cs, h cs = f (g cs)) →
  ∀ p n, alter_contents f p (alter_contents g p n) = alter_contents h p n.
Proof.
  intros Hh. induction p as [|i p IH]; intros [k s|name attrs cs];
    cbn [alter_contents]; try done.
  - by rewrite Hh.
  - f_equal. by apply alter_alter.
Qed.

Lemma prefix_both (p q : path) : p `prefix_of` q → q `prefix_of` p → p = q.
Proof.
  intros [k ->] [k' Hk']. rewrite <- (app_nil_r p) in Hk' at 1.
  rewrite <- app_assoc in Hk'. apply app_inv_head in Hk'.
  symmetry in Hk'. apply app_eq_nil in Hk' as [-> _]. by rewrite app_nil_r.
Qed.

(** X13: when the main-content element is below [soup.body], lines 10 to
    13 give the document as it was but for the children of the body, which
    are now the main-content element alone: what is outside the body stays
    as it was. *)
Theorem main_content_below_body (soup : node) (content_root body : path)
    (c : node) :
  content_root_of soup = Some content_root →
  body_of soup = Some body →
  lookup_path content_root soup = Some c →
  body `prefix_of` content_root → body ≠ content_root →
  retain_main_content soup = Return (alter_contents (λ _, [c]) body soup).
Proof.
  intros Hroot Hbody Hc Hbelow Hne. unfold retain_main_content.
  rewrite Hroot, Hbody, Hc. unfold append, clear.
  rewrite bool_decide_eq_false_2
    by (intros Hup; by apply Hne, prefix_both).
  rewrite bool_decide_eq_true_2 by done.
  rewrite path_after_removal_prefix by done.
  by rewrite (alter_contents_twice _ _ (λ _, [c])).
Qed.

Lemma main_content_below_body_witness :
  retain_main_content paris_page
  = Return (alter_contents (λ _, [paris]) [0; 0] paris_page).
Proof.
  apply (main_content_below_body paris_page [0; 0; 0] [0; 0] paris).
  - vm_compute. reflexivity.
  - vm_compute. reflexivity.
  - reflexivity.
  - by exists [0].
  - done.
Defined.

(** ** A document with nothing to clean *)

Lemma omap_nothing (f : node → option node) (cs : list node) :
  Forall (λ x, f x = Some x) cs → omap f cs = cs.
Proof.
  induction 1 as [|x cs Hx _ IH]; [done|].
  cbn [omap list_omap]. fold (omap f cs). by rewrite Hx, IH.
Qed.

Lemma decompose_selected_nothing (sel : selector) (c : str) :
  (∀ inside n, has_class c n = false → selected sel inside n = false) →
  ∀ n inside, find_from (has_class c) n = None →
              decompose_selected sel inside n = Some n.
Proof.
  intros Hsel. induction n as [k s|name attrs cs IH] using node_induction;
    intros inside; [done|].
  cbn [find_from decompose_selected].
  destruct (has_class c (Tag name attrs cs)) eqn:Hc; [done|].
  rewrite (Hsel _ _ Hc), first_in_None. intros Hfree. do 2 f_equal.
  apply omap_nothing. rewrite Forall_forall in IH, Hfree.
  apply Forall_forall. auto.
Qed.

Lemma remove_selected_nothing (sel : selector) (c : str) (soup : node) :
  (∀ inside n, has_class c n = false → selected sel inside n = false) →
  find (has_class c) soup = None → remove_selected sel soup = soup.
Proof.
  intros Hsel. destruct soup as [k s|name attrs cs]; [done|].
  unfold find. cbn [contents_of remove_selected]. rewrite first_in_None.
  intros Hfree. f_equal. apply omap_nothing.
  eapply Forall_impl; [exact Hfree|]. intros x.
  by apply decompose_selected_nothing.
Qed.

Lemma extract_junk_nothing :
  ∀ n, find_from is_junk_string n = None → extract_junk n = Some n.
Proof.
  induction n as [k s|name attrs cs IH] using node_induction.
  - cbn. by destruct (junk s).
  - cbn [find_from is_junk_string extract_junk]. rewrite first_in_None.
    intros Hfree. do 2 f_equal. apply omap_nothing.
    rewrite Forall_forall in IH, Hfree. apply Forall_forall. auto.
Qed.

Lemma remove_junk_nothing (soup : node) :
  find is_junk_string soup = None → remove_junk soup = soup.
Proof.
  destruct soup as [k s|name attrs cs]; [done|].
  unfold find. cbn [contents_of remove_junk]. rewrite first_in_None.
  intros Hfree. f_equal. apply omap_nothing.
  eapply Forall_impl; [exact Hfree|]. apply extract_junk_nothing.
Qed.

(** X15: a document in which [find] meets no main-content element, no
    element of one of the five classes, no string with a marker and no
    "See also" anchor comes out of the cleaning as it went in. *)
Theorem nothing_to_clean (soup : node) :
  content_root_of soup = None →
  (∀ c, c ∈ [lit "navbox"; lit "printfooter"; lit "toc";
             lit "mw-editsection"; lit "hlist"] →
        find (has_class c) soup = None) →
  find is_junk_string soup = None →
  see_also_span_of soup = None →
  clean_soup soup = Return soup.
Proof.
  intros Hroot Hclasses Hjunk Hspan. unfold clean_soup, retain_main_content.
  rewrite Hroot. cbn [foldl clutter].
  rewrite (remove_selected_nothing (ByClass (lit "navbox")) (lit "navbox") soup);
    cycle 1.
  { done. }
  { apply Hclasses. rewrite !elem_of_cons. auto. }
  rewrite (remove_selected_nothing (ByClass (lit "printfooter")) (lit "printfooter") soup);
    cycle 1.
  { done. }
  { apply Hclasses. rewrite !elem_of_cons. auto. }
  rewrite (remove_selected_nothing (ByClass (lit "toc")) (lit "toc") soup);
    cycle 1.
  { done. }
  { apply Hclasses. rewrite !elem_of_cons. auto. }
  rewrite (remove_selected_nothing (ByClass (lit "mw-editsection")) (lit "mw-editsection") soup);
    cycle 1.
  { done. }
  { apply Hclasses. rewrite !elem_of_cons. auto 6. }
  rewrite (remove_selected_nothing _ (lit "hlist") soup); cycle 1.
  { intros inside n Hn. cbn [selected]. by rewrite Hn, andb_false_r. }
  { apply Hclasses. rewrite !elem_of_cons. auto 6. }
  rewrite remove_junk_nothing by done.
  unfold remove_see_also. by rewrite Hspan.
Qed.

Lemma nothing_to_clean_witness :
  clean_soup
    (BeautifulSoup
       [element "html" []
          [element "body" []
             [element "p" [] [text "Paris is the capital of France."]]]])
  = Return
      (BeautifulSoup
         [element "html" []
            [element "body" []
               [element "p" [] [text "Paris is the capital of France."]]]]).
Proof.
  apply nothing_to_clean.
  - reflexivity.
  - intros c Hc. rewrite !elem_of_cons in Hc.
    destruct Hc as [->|[->|[->|[->|[->|Hc]]]]];
      [reflexivity..|by apply elem_of_nil in Hc].
  - reflexivity.
  - reflexivity.
Defined.
